(** * An unbalanced binary search tree of [int]s

    Shallow embedding of [Source.cpp]: the [Node] structure, the private
    recursive helpers of class [BST] ([insert], [remove], [findMax],
    [findMin]) and its public methods ([add], [remove], [findMaximum],
    [testPerformance]), followed by the properties of the specification.

    Conventions of the embedding.
    - A [Node*] is a [tree]: [nullptr] is the null pointer, [Node d l r] a
      pointer to a node with [data = d], [left = l], [right = r].  Every node
      has exactly one owner in the program, so in-place updates of a field are
      rebuilt nodes here.
    - An [int] is a [Z].  The tree code only compares and copies [data], so no
      wrap-around can occur; the one arithmetic expression, in
      [testPerformanceHelper], stays far below [2^31].
    - What a method writes to [std::cout] is returned as the list of the
      pieces written, in order.
    - Reading a field through a null pointer has no defined behaviour; the
      functions that could do so return an [option], [None] standing for that
      read. *)

From Stdlib Require Import ZArith List Bool String Ascii Sorted Lia.
From Stdlib Require Import DecimalString.
From Stdlib Require Import Permutation.
Import ListNotations.
Open Scope Z_scope.

(** ** Data model *)

(** [struct Node { int data; Node* left; Node* right; }], with [nullptr]. *)
Inductive tree : Type :=
| nullptr : tree
| Node (data : Z) (left right : tree) : tree.

(** The left-to-right (in-order) sequence of the values of a subtree. *)
Fixpoint inorder (t : tree) : list Z :=
  match t with
  | nullptr => []
  | Node d l r => inorder l ++ d :: inorder r
  end.

(** Number of nodes of a subtree. *)
Fixpoint size (t : tree) : nat :=
  match t with
  | nullptr => O
  | Node _ l r => S (size l + size r)
  end.

(** The ordering invariant: at every node, everything on the left is strictly
    smaller and everything on the right strictly greater. *)
Fixpoint bst (t : tree) : Prop :=
  match t with
  | nullptr => True
  | Node d l r =>
      Forall (fun x => x < d) (inorder l) /\
      Forall (fun x => d < x) (inorder r) /\
      bst l /\ bst r
  end.

(** The same invariant as a test that computes. *)
Fixpoint is_bst (t : tree) : bool :=
  match t with
  | nullptr => true
  | Node d l r =>
      forallb (fun x => x <? d) (inorder l) &&
      forallb (fun x => d <? x) (inorder r) &&
      is_bst l && is_bst r
  end.

(** ** Output *)

(** The character written for ["\n"]. *)
Definition newline : string := String (ascii_of_nat 10) EmptyString.

(** [operator<<] on an [int]: its decimal representation. *)
Definition show_int (z : Z) : string := NilZero.string_of_int (Z.to_int z).

(** [if (verbose) std::cout << ...]: the pieces reach the output only when the
    flag is set. *)
Definition trace (verbose : bool) (msg : list string) : list string :=
  if verbose then msg else [].

(** ** Private helpers of [BST] *)

(** [Node* insert(Node* node, int data)], reading the member [verbose]. The
    result is the returned pointer and what was written to [std::cout]. *)
Fixpoint insert (verbose : bool) (node : tree) (data : Z) : tree * list string :=
  match node with
  | nullptr =>
      (Node data nullptr nullptr,
       trace verbose ["Insert "; show_int data; " here." ++ newline]%string)
  | Node d l r =>
      if data <? d then
        let (l', out) := insert verbose l data in
        (Node d l' r,
         trace verbose ["Go left from "; show_int d; newline]%string ++ out)
      else if data >? d then
        let (r', out) := insert verbose r data in
        (Node d l r',
         trace verbose ["Go right from "; show_int d; newline]%string ++ out)
      else (Node d l r, [])
  end.

(** [Node* findMin(Node* node)]: follow [left] while the node and its left
    child exist. *)
Fixpoint findMin (node : tree) : tree :=
  match node with
  | nullptr => nullptr
  | Node _ l _ =>
      match l with
      | nullptr => node
      | Node _ _ _ => findMin l
      end
  end.

(** [temp->data]: undefined on the null pointer. *)
Definition data_of (node : tree) : option Z :=
  match node with
  | nullptr => None
  | Node d _ _ => Some d
  end.

(** [Node* remove(Node* node, int data)].  It writes nothing and does not read
    [verbose]. *)
Fixpoint remove (node : tree) (data : Z) : option tree :=
  match node with
  | nullptr => Some nullptr
  | Node d l r =>
      if data <? d then
        match remove l data with
        | Some l' => Some (Node d l' r)
        | None => None
        end
      else if data >? d then
        match remove r data with
        | Some r' => Some (Node d l r')
        | None => None
        end
      else
        match l with
        | nullptr => Some r
        | Node _ _ _ =>
            match r with
            | nullptr => Some l
            | Node _ _ _ =>
                match data_of (findMin r) with
                | None => None
                | Some succ =>
                    match remove r succ with
                    | Some r' => Some (Node succ l r')
                    | None => None
                    end
                end
            end
        end
  end.

(** The [while] loop of [findMax], entered at a node with value [d] and right
    child [r]. *)
Fixpoint findMax_loop (d : Z) (r : tree) : Z :=
  match r with
  | nullptr => d
  | Node d' _ r' => findMax_loop d' r'
  end.

(** [int findMax(Node* node)]. *)
Definition findMax (node : tree) : Z :=
  match node with
  | nullptr => -1
  | Node d _ r => findMax_loop d r
  end.

(** ** The class [BST] *)

(** The data members: [Node* root] and [bool verbose]. *)
Record BST : Type := mkBST { root : tree; verbose : bool }.

(** [BST() : root(nullptr), verbose(true) {}] *)
Definition BST_new : BST := mkBST nullptr true.

Module Public.

(** [void add(int data) { root = insert(root, data); }] *)
Definition add (data : Z) (self : BST) : BST * list string :=
  let (n, out) := insert (verbose self) (root self) data in
  (mkBST n (verbose self), out).

(** [void remove(int data) { root = remove(root, data); }] *)
Definition remove (data : Z) (self : BST) : option BST :=
  match remove (root self) data with
  | Some n => Some (mkBST n (verbose self))
  | None => None
  end.

(** [int findMaximum() { return findMax(root); }] *)
Definition findMaximum (self : BST) : Z := findMax (root self).

Section Benchmark.

(** What the process supplies during one call of [testPerformance]:
    [rand i] is the value of the [i]-th call of [rand()] from the start of
    [testPerformance], and [elapsed n] is the text written for
    [elapsed.count()] in the stage of [n] elements. *)
Variable rand : N -> Z.
Variable elapsed : Z -> string.

(** The [for] loop of [testPerformanceHelper]: [count] iterations remain,
    [used] calls of [rand()] have been made. *)
Fixpoint add_random (numElements : Z) (count : nat) (used : N) (self : BST)
  : BST * list string :=
  match count with
  | O => (self, [])
  | S count' =>
      let (self1, out1) := add (Z.rem (rand used) (numElements * 10)) self in
      let (self2, out2) := add_random numElements count' (N.succ used) self1 in
      (self2, out1 ++ out2)
  end.

(** [void testPerformanceHelper(int numElements)], started after [used]
    calls of [rand()]. *)
Definition testPerformanceHelper (numElements : Z) (used : N) (self : BST)
  : BST * list string :=
  let (self', out) :=
    add_random numElements (Z.to_nat numElements) used self in
  (self',
   out ++ ["Added "; show_int numElements; " elements in ";
           elapsed numElements; " ms" ++ newline]%string).

(** [void testPerformance()] *)
Definition testPerformance (self : BST) : BST * list string :=
  let self0 := mkBST (root self) false in
  let (self1, out1) := testPerformanceHelper 100 0 self0 in
  let (self2, out2) := testPerformanceHelper 1000 100 self1 in
  let (self3, out3) := testPerformanceHelper 10000 1100 self2 in
  let (self4, out4) := testPerformanceHelper 100000 11100 self3 in
  (mkBST (root self4) true, out1 ++ out2 ++ out3 ++ out4).

End Benchmark.

End Public.

(** ** Sequences of operations *)

(** A mutating request of the caller. *)
Inductive op : Type :=
| Add (value : Z)
| Remove (value : Z).

(** One request on the object: the new object and the output written. *)
Definition step (o : op) (self : BST) : option (BST * list string) :=
  match o with
  | Add v => Some (Public.add v self)
  | Remove v =>
      match Public.remove v self with
      | Some self' => Some (self', [])
      | None => None
      end
  end.

(** A sequence of requests, first to last. *)
Fixpoint run (ops : list op) (self : BST) : option (BST * list string) :=
  match ops with
  | [] => Some (self, [])
  | o :: ops' =>
      match step o self with
      | Some (self1, out1) =>
          match run ops' self1 with
          | Some (self2, out2) => Some (self2, out1 ++ out2)
          | None => None
          end
      | None => None
      end
  end.

(** The subtrees that [insert] and [remove] can produce from the empty tree. *)
Inductive reachable : tree -> Prop :=
| reachable_empty : reachable nullptr
| reachable_insert (vb : bool) (t : tree) (v : Z) :
    reachable t -> reachable (fst (insert vb t v))
| reachable_remove (t t' : tree) (v : Z) :
    reachable t -> remove t v = Some t' -> reachable t'.

(** The objects a caller of the public methods can hold, starting from the
    constructor. *)
Inductive constructed : BST -> Prop :=
| constructed_new : constructed BST_new
| constructed_add (self : BST) (v : Z) :
    constructed self -> constructed (fst (Public.add v self))
| constructed_remove (self self' : BST) (v : Z) :
    constructed self -> Public.remove v self = Some self' -> constructed self'
| constructed_testPerformance (rand : N -> Z) (elapsed : Z -> string)
    (self : BST) :
    constructed self ->
    constructed (fst (Public.testPerformance rand elapsed self)).

(** Scenario A of the specification: 50, 30, 70, 20, 40, 60, 80 added to a new
    object. *)
Definition scenarioA_ops : list op :=
  [Add 50; Add 30; Add 70; Add 20; Add 40; Add 60; Add 80].

(** ** The rest of the class and its caller *)

(** The pre-order sequence of the values of a subtree: a node, then its left
    subtree, then its right subtree. *)
Fixpoint preorder (t : tree) : list Z :=
  match t with
  | nullptr => []
  | Node d l r => d :: preorder l ++ preorder r
  end.

(** Number of nodes on the longest path from a node down to a leaf. *)
Fixpoint height (t : tree) : nat :=
  match t with
  | nullptr => O
  | Node _ l r => S (Nat.max (height l) (height r))
  end.

(** [count] copies of the fill character, a blank. *)
Fixpoint blanks (count : nat) : string :=
  match count with
  | O => EmptyString
  | S count' => String " "%char (blanks count')
  end.

(** [std::setw(width)] applied to the next item written: the text is padded
    on the left with blanks up to [width] characters, and written as it is
    when it is at least that long. *)
Definition setw (width : Z) (text : string) : string :=
  (blanks (Z.to_nat width - String.length text) ++ text)%string.

(** [void printTree(Node* node, int space = 0)]: what is written to
    [std::cout].  [space] grows by 5 per level and stays far below [2^31] for
    every tree that fits in memory. *)
Fixpoint printTree (node : tree) (space : Z) : list string :=
  match node with
  | nullptr => []
  | Node d l r =>
      let space' := space + 5 in
      printTree r space' ++
      [setw space' (show_int d); newline] ++
      printTree l space'
  end.

(** [void destroyTree(Node* node)]: the [data] of the nodes passed to
    [delete], in the order of the calls. *)
Fixpoint destroyTree (node : tree) : list Z :=
  match node with
  | nullptr => []
  | Node d l r => destroyTree l ++ destroyTree r ++ [d]
  end.

(** [void display()] *)
Definition display (self : BST) : list string :=
  ("BST Structure:" ++ newline)%string :: printTree (root self) 0.

(** The nodes of a subtree from right to left, each with its level, the root
    of the subtree being at level [k]. *)
Fixpoint levels (t : tree) (k : nat) : list (nat * Z) :=
  match t with
  | nullptr => []
  | Node d l r => levels r (S k) ++ (k, d) :: levels l (S k)
  end.

(** Number of nodes that the search for [v] visits: the level of the node
    that holds [v] in a search tree, the root being at level 1. *)
Fixpoint depth (t : tree) (v : Z) : nat :=
  match t with
  | nullptr => O
  | Node d l r =>
      if v <? d then S (depth l v)
      else if v >? d then S (depth r v)
      else 1%nat
  end.

(** *** [main] *)

(** What [std::cin >>] finds next on standard input when it extracts an
    [int]: an integer numeral of some value, or text that is no numeral. *)
Inductive item : Type :=
| Num (z : Z)
| Junk.

(** The state of [std::cin]: what is left of the input, and whether the
    stream is no longer good (a failed extraction or the end of the input).
    [main] never tests or clears that state. *)
Record istream : Type := mkIstream { pending : list item; failed : bool }.

Definition INT_MAX : Z := 2147483647.
Definition INT_MIN : Z := -2147483648.

(** [std::cin >> var] for an [int] variable holding [var] ([None] when it has
    never been assigned).  On a stream that is not good, and at the end of the
    input, nothing is stored.  A numeral in range is stored; one out of range
    stores the nearest bound and fails the stream; text that is no numeral
    stores 0 and fails the stream. *)
Definition extract (s : istream) (var : option Z) : istream * option Z :=
  if failed s then (s, var)
  else
    match pending s with
    | [] => (mkIstream [] true, var)
    | Num z :: rest =>
        if z <? INT_MIN then (mkIstream rest true, Some INT_MIN)
        else if INT_MAX <? z then (mkIstream rest true, Some INT_MAX)
        else (mkIstream rest false, Some z)
    | Junk :: rest => (mkIstream (Junk :: rest) true, Some 0)
    end.

(** The locals of [main] and the parts of the process it uses: the object
    [tree], the variables [choice] and [value] (declared without a value),
    [std::cin], and the number of calls of [rand()] made. *)
Record main_state : Type := mkMain {
  m_tree : BST;
  m_choice : option Z;
  m_value : option Z;
  m_cin : istream;
  m_used : N
}.

(** How a run of [main] stands: it has returned with an exit code, it is at
    the head of the loop, it has read through a null pointer, or it has read
    a variable that was never assigned. *)
Inductive outcome : Type :=
| Exited (code : Z)
| Running
| ReadsNull
| ReadsUnassigned.

(** The menu written at the start of each turn of the loop. *)
Definition menu : string :=
  (newline ++ "1. Add Node" ++ newline ++ "2. Remove Node" ++ newline ++
   "3. Display Tree" ++ newline ++ "4. Find Maximum" ++ newline ++
   "5. Run Performance Test" ++ newline ++ "6. Exit" ++ newline ++
   "Enter your choice: ")%string.

(** Output written before what the rest of the run writes. *)
Definition after (out : list string)
    (rest : main_state * list string * outcome)
  : main_state * list string * outcome :=
  let '(st, out', oc) := rest in (st, out ++ out', oc).

Section Main.

(** What the process supplies to [main]: [rand i] is the value of the [i]-th
    call of [rand()] of the process, and [elapsed u n] the text written for
    [elapsed.count()] in the stage of [n] elements of the performance test
    started after [u] calls of [rand()]. *)
Variable rand : N -> Z.
Variable elapsed : N -> Z -> string.

(** At most [turns] turns of the [while (true)] loop of [main] from the state
    [st]: the state reached, what was written to [std::cout], and how the run
    stands then. *)
Fixpoint main_loop (turns : nat) (st : main_state)
  : main_state * list string * outcome :=
  match turns with
  | O => (st, [], Running)
  | S turns' =>
      let (cin1, choice1) := extract (m_cin st) (m_choice st) in
      let st1 := mkMain (m_tree st) choice1 (m_value st) cin1 (m_used st) in
      match choice1 with
      | None => (st1, [menu], ReadsUnassigned)
      | Some choice =>
          if choice =? 1 then
            let (cin2, value2) := extract cin1 (m_value st) in
            let st2 := mkMain (m_tree st) choice1 value2 cin2 (m_used st) in
            match value2 with
            | None =>
                (st2, [menu; "Enter value to add: "%string], ReadsUnassigned)
            | Some value =>
                let (tree1, out1) := Public.add value (m_tree st) in
                after ([menu; "Enter value to add: "%string] ++ out1)
                      (main_loop turns'
                         (mkMain tree1 choice1 value2 cin2 (m_used st)))
            end
          else if choice =? 2 then
            let (cin2, value2) := extract cin1 (m_value st) in
            let st2 := mkMain (m_tree st) choice1 value2 cin2 (m_used st) in
            match value2 with
            | None =>
                (st2, [menu; "Enter value to remove: "%string],
                 ReadsUnassigned)
            | Some value =>
                match Public.remove value (m_tree st) with
                | Some tree1 =>
                    after [menu; "Enter value to remove: "%string]
                          (main_loop turns'
                             (mkMain tree1 choice1 value2 cin2 (m_used st)))
                | None =>
                    (st2, [menu; "Enter value to remove: "%string], ReadsNull)
                end
            end
          else if choice =? 3 then
            after (menu :: display (m_tree st)) (main_loop turns' st1)
          else if choice =? 4 then
            after [menu; "Maximum value in BST: "%string;
                   show_int (Public.findMaximum (m_tree st)); newline]
                  (main_loop turns' st1)
          else if choice =? 5 then
            let (tree1, out1) :=
              Public.testPerformance (fun i => rand (m_used st + i)%N)
                                     (elapsed (m_used st)) (m_tree st) in
            after (menu :: out1)
                  (main_loop turns'
                     (mkMain tree1 choice1 (m_value st) cin1
                             (m_used st + 111100)%N))
          else if choice =? 6 then
            (st1, [menu; ("Exiting program." ++ newline)%string], Exited 0)
          else
            after [menu; ("Invalid choice. Please try again." ++ newline)%string]
                  (main_loop turns' st1)
      end
  end.

(** [int main()] on the standard input [input], followed for at most
    [turns] turns of its loop. *)
Definition main (input : list item) (turns : nat)
  : main_state * list string * outcome :=
  main_loop turns (mkMain BST_new None None (mkIstream input false) 0%N).

End Main.

(** What a user types at the menu for one request: the choice and the
    value. *)
Definition keys (o : op) : list item :=
  match o with
  | Add v => [Num 1; Num v]
  | Remove v => [Num 2; Num v]
  end.

(** The value of a request fits an [int]. *)
Definition fits_int (o : op) : Prop :=
  match o with
  | Add v | Remove v => INT_MIN <= v <= INT_MAX
  end.

(** * Properties *)

(** ** Proof support *)

(** Decide the comparisons [x <? y] and [x >? y] found in the goal. *)
Ltac cmp :=
  repeat match goal with
  | |- context [?x >? ?y] => rewrite (Z.gtb_ltb x y)
  | |- context [?x <? ?y] => destruct (Z.ltb_spec x y)
  end.

Lemma In_inorder_Node (x d : Z) (l r : tree) :
  In x (inorder (Node d l r)) <-> In x (inorder l) \/ x = d \/ In x (inorder r).
Proof.
  simpl. rewrite in_app_iff. simpl. intuition congruence.
Qed.

Lemma is_bst_bst (t : tree) : is_bst t = true <-> bst t.
Proof.
  induction t as [|d l IHl r IHr]; simpl.
  - tauto.
  - rewrite !andb_true_iff, !forallb_forall, !Forall_forall, IHl, IHr.
    split; intros H; repeat split; try apply H.
    + intros x Hx. apply Z.ltb_lt. now apply H.
    + intros x Hx. apply Z.ltb_lt. now apply H.
    + intros x Hx. apply Z.ltb_lt. now apply H.
    + intros x Hx. apply Z.ltb_lt. now apply H.
Qed.

(** *** Strictly increasing lists *)

Lemma sorted_app (xs ys : list Z) (d : Z) :
  StronglySorted Z.lt (xs ++ d :: ys) <->
  StronglySorted Z.lt xs /\ StronglySorted Z.lt ys /\
  Forall (fun x => x < d) xs /\ Forall (fun x => d < x) ys.
Proof.
  induction xs as [|a xs IH]; simpl.
  - split.
    + intros H. inversion H; subst. repeat split; auto; constructor.
    + intros (_ & H2 & _ & H4). now constructor.
  - split.
    + intros H. inversion H as [|? ? Hs Hf]; subst.
      apply IH in Hs. destruct Hs as (H1 & H2 & H3 & H4).
      rewrite Forall_app in Hf. destruct Hf as [Hf1 Hf2].
      inversion Hf2; subst.
      repeat split; auto. constructor; auto.
    + intros (H1 & H2 & H3 & H4).
      inversion H1; subst. inversion H3; subst.
      constructor.
      * apply IH. auto.
      * rewrite Forall_app. split; auto.
        constructor; auto.
        eapply Forall_impl; [|exact H4]. simpl. intros; lia.
Qed.

Lemma bst_sorted (t : tree) : bst t <-> StronglySorted Z.lt (inorder t).
Proof.
  induction t as [|d l IHl r IHr]; simpl.
  - split; intros; constructor.
  - rewrite sorted_app, IHl, IHr. tauto.
Qed.

(** *** [insert] *)

Lemma fst_insert_Node (vb : bool) (d : Z) (l r : tree) (v : Z) :
  fst (insert vb (Node d l r) v) =
  if v <? d then Node d (fst (insert vb l v)) r
  else if v >? d then Node d l (fst (insert vb r v))
  else Node d l r.
Proof.
  simpl. destruct (v <? d).
  - now destruct (insert vb l v).
  - destruct (v >? d); [now destruct (insert vb r v) | reflexivity].
Qed.

Lemma insert_flag (vb vb' : bool) (t : tree) (v : Z) :
  fst (insert vb t v) = fst (insert vb' t v).
Proof.
  induction t as [|d l IHl r IHr].
  - reflexivity.
  - rewrite !fst_insert_Node. now rewrite IHl, IHr.
Qed.

Lemma insert_quiet (t : tree) (v : Z) : snd (insert false t v) = [].
Proof.
  induction t as [|d l IHl r IHr]; simpl.
  - reflexivity.
  - destruct (v <? d).
    + destruct (insert false l v). simpl in *. assumption.
    + destruct (v >? d); [|reflexivity].
      destruct (insert false r v). simpl in *. assumption.
Qed.

Lemma In_insert (vb : bool) (t : tree) (v x : Z) :
  In x (inorder (fst (insert vb t v))) <-> x = v \/ In x (inorder t).
Proof.
  induction t as [|d l IHl r IHr].
  - simpl. intuition congruence.
  - rewrite fst_insert_Node. cmp; rewrite ?In_inorder_Node, ?IHl, ?IHr.
    + tauto.
    + tauto.
    + assert (v = d) by lia. subst. tauto.
Qed.

Lemma Forall_insert (P : Z -> Prop) (vb : bool) (t : tree) (v : Z) :
  P v -> Forall P (inorder t) -> Forall P (inorder (fst (insert vb t v))).
Proof.
  rewrite !Forall_forall. intros Hv Ht x Hx.
  apply In_insert in Hx. destruct Hx as [->|Hx]; auto.
Qed.

Lemma bst_insert (vb : bool) (t : tree) (v : Z) :
  bst t -> bst (fst (insert vb t v)).
Proof.
  induction t as [|d l IHl r IHr].
  - simpl. intros _. repeat split; constructor.
  - intros (Hl & Hr & Bl & Br). rewrite fst_insert_Node. cmp; simpl.
    + repeat split; auto. now apply Forall_insert.
    + repeat split; auto. now apply Forall_insert.
    + repeat split; auto.
Qed.

Lemma insert_present (vb : bool) (t : tree) (v : Z) :
  bst t -> In v (inorder t) -> fst (insert vb t v) = t.
Proof.
  induction t as [|d l IHl r IHr].
  - simpl. tauto.
  - intros (Hl & Hr & Bl & Br) Hin. rewrite fst_insert_Node.
    rewrite Forall_forall in Hl, Hr.
    apply In_inorder_Node in Hin. cmp.
    + destruct Hin as [Hin|[->|Hin]].
      * now rewrite IHl.
      * lia.
      * apply Hr in Hin. lia.
    + destruct Hin as [Hin|[->|Hin]].
      * apply Hl in Hin. lia.
      * lia.
      * now rewrite IHr.
    + reflexivity.
Qed.

Lemma insert_absent (vb : bool) (t : tree) (v : Z) :
  ~ In v (inorder t) ->
  exists xs ys,
    inorder t = xs ++ ys /\ inorder (fst (insert vb t v)) = xs ++ v :: ys.
Proof.
  induction t as [|d l IHl r IHr].
  - intros _. exists [], []. split; reflexivity.
  - rewrite In_inorder_Node. intros Hn. rewrite fst_insert_Node. cmp.
    + destruct IHl as (xs & ys & E1 & E2); [tauto|].
      exists xs, (ys ++ d :: inorder r). simpl. rewrite E1, E2.
      rewrite <- !app_assoc. split; reflexivity.
    + destruct IHr as (xs & ys & E1 & E2); [tauto|].
      exists (inorder l ++ d :: xs), ys. simpl. rewrite E1, E2.
      rewrite <- !app_assoc. split; reflexivity.
    + exfalso. apply Hn. right. left. lia.
Qed.

Lemma insert_twice (vb vb' : bool) (t : tree) (v : Z) :
  fst (insert vb' (fst (insert vb t v)) v) = fst (insert vb t v).
Proof.
  induction t as [|d l IHl r IHr].
  - simpl. cmp; try lia. reflexivity.
  - rewrite fst_insert_Node.
    destruct (Z.ltb_spec v d) as [H|H].
    + rewrite fst_insert_Node. cmp; try lia. now rewrite IHl.
    + rewrite Z.gtb_ltb. destruct (Z.ltb_spec d v) as [H'|H'].
      * rewrite fst_insert_Node. cmp; try lia. now rewrite IHr.
      * rewrite fst_insert_Node. cmp; try lia. reflexivity.
Qed.

Lemma size_insert_absent (vb : bool) (t : tree) (v : Z) :
  ~ In v (inorder t) -> size (fst (insert vb t v)) = S (size t).
Proof.
  induction t as [|d l IHl r IHr].
  - reflexivity.
  - rewrite In_inorder_Node. intros Hn. rewrite fst_insert_Node. cmp; simpl.
    + rewrite IHl by tauto. reflexivity.
    + rewrite IHr by tauto. lia.
    + exfalso. apply Hn. right. left. lia.
Qed.

(** *** [findMin] *)

Lemma findMin_Node (r : tree) :
  r <> nullptr -> exists m mr, findMin r = Node m nullptr mr.
Proof.
  induction r as [|d l IHl rr _]; [congruence|]. intros _.
  destruct l as [|dl ll lr].
  - simpl. eauto.
  - change (findMin (Node d (Node dl ll lr) rr)) with (findMin (Node dl ll lr)).
    apply IHl. discriminate.
Qed.

Lemma findMin_In (r : tree) (m : Z) (ml mr : tree) :
  findMin r = Node m ml mr -> In m (inorder r).
Proof.
  induction r as [|d l IHl rr _]; [discriminate|].
  destruct l as [|dl ll lr].
  - simpl. intros [= -> _ _]. now left.
  - change (findMin (Node d (Node dl ll lr) rr)) with (findMin (Node dl ll lr)).
    intros H. apply In_inorder_Node. left. now apply IHl.
Qed.

(** *** [remove] *)

Lemma remove_Node (d : Z) (l r : tree) (v : Z) :
  remove (Node d l r) v =
  if v <? d then option_map (fun l' => Node d l' r) (remove l v)
  else if v >? d then option_map (fun r' => Node d l r') (remove r v)
  else match l, r with
       | nullptr, _ => Some r
       | _, nullptr => Some l
       | _, _ =>
           match data_of (findMin r) with
           | None => None
           | Some succ => option_map (fun r' => Node succ l r') (remove r succ)
           end
       end.
Proof.
  simpl. destruct (v <? d).
  - now destruct (remove l v).
  - destruct (v >? d).
    + now destruct (remove r v).
    + destruct l; [reflexivity|]. destruct r; [reflexivity|].
      destruct (data_of _); [|reflexivity].
      now destruct (remove _ _).
Qed.

Lemma remove_total (t : tree) (v : Z) : exists t', remove t v = Some t'.
Proof.
  revert v. induction t as [|d l IHl r IHr]; intros v.
  - simpl. eauto.
  - rewrite remove_Node. cmp.
    + destruct (IHl v) as [l' ->]. simpl. eauto.
    + destruct (IHr v) as [r' ->]. simpl. eauto.
    + destruct l as [|dl ll lr]; [eauto|].
      destruct r as [|dr rl rr]; [eauto|].
      destruct (findMin_Node (Node dr rl rr)) as (m & mr & ->); [discriminate|].
      simpl data_of. cbv iota.
      destruct (IHr m) as [r' ->]. simpl. eauto.
Qed.

Lemma remove_two_children (d : Z) (l r : tree) :
  l <> nullptr -> r <> nullptr ->
  exists m mr r',
    findMin r = Node m nullptr mr /\ remove r m = Some r' /\
    remove (Node d l r) d = Some (Node m l r').
Proof.
  intros Hl Hr.
  destruct (findMin_Node r Hr) as (m & mr & Hm).
  destruct (remove_total r m) as [r' Hr'].
  exists m, mr, r'. repeat split; auto.
  rewrite remove_Node. cmp; try lia.
  destruct l; [congruence|]. destruct r; [congruence|].
  rewrite Hm. simpl data_of. cbv iota. rewrite Hr'. reflexivity.
Qed.

Lemma remove_absent (t : tree) (v : Z) :
  ~ In v (inorder t) -> remove t v = Some t.
Proof.
  induction t as [|d l IHl r IHr].
  - reflexivity.
  - rewrite In_inorder_Node. intros Hn. rewrite remove_Node. cmp.
    + rewrite IHl by tauto. reflexivity.
    + rewrite IHr by tauto. reflexivity.
    + exfalso. apply Hn. right. left. lia.
Qed.

Lemma remove_min (r : tree) (m : Z) (ml mr r' : tree) :
  bst r -> findMin r = Node m ml mr -> remove r m = Some r' ->
  inorder r = m :: inorder r'.
Proof.
  revert r'. induction r as [|d l IHl rr _]; intros r' Hb Hm Hr;
    [discriminate|].
  destruct Hb as (Hl & _ & Bl & _).
  destruct l as [|dl ll lr].
  - simpl in Hm. injection Hm as -> _ _.
    rewrite remove_Node in Hr. revert Hr. cmp; try lia.
    intros [= ->]. reflexivity.
  - change (findMin (Node d (Node dl ll lr) rr))
      with (findMin (Node dl ll lr)) in Hm.
    assert (m < d) as Hlt.
    { rewrite Forall_forall in Hl. apply Hl. eapply findMin_In; eauto. }
    rewrite remove_Node in Hr. revert Hr. cmp; try lia.
    destruct (remove (Node dl ll lr) m) as [l'|] eqn:El; [|discriminate].
    simpl. intros [= <-].
    change (inorder (Node dl ll lr) ++ d :: inorder rr = m :: inorder (Node d l' rr)).
    rewrite (IHl l' Bl Hm eq_refl). reflexivity.
Qed.

Lemma In_remove (t t' : tree) (v x : Z) :
  bst t -> remove t v = Some t' ->
  (In x (inorder t') <-> In x (inorder t) /\ x <> v).
Proof.
  revert v t'. induction t as [|d l IHl r IHr]; intros v t' Hb Hr.
  - simpl in Hr. injection Hr as <-. simpl. tauto.
  - destruct Hb as (Hl & Hg & Bl & Br).
    rewrite Forall_forall in Hl, Hg.
    rewrite remove_Node in Hr. revert Hr. cmp.
    + destruct (remove l v) as [l'|] eqn:El; [|discriminate].
      simpl option_map. intros [= <-]. rewrite !In_inorder_Node, (IHl v l' Bl El).
      split.
      * intros [[? ?]|[->|Hx]]; [tauto|split; [auto|lia]|].
        split; [tauto|]. apply Hg in Hx. lia.
      * tauto.
    + destruct (remove r v) as [r'|] eqn:Er; [|discriminate].
      simpl option_map. intros [= <-]. rewrite !In_inorder_Node, (IHr v r' Br Er).
      split.
      * intros [Hx|[->|[? ?]]]; [|split; [auto|lia]|tauto].
        split; [tauto|]. apply Hl in Hx. lia.
      * tauto.
    + assert (v = d) by lia. subst v.
      destruct l as [|dl ll lr].
      { intros [= <-]. rewrite In_inorder_Node. simpl (inorder nullptr).
        split.
        - intros Hx. split; [tauto|]. apply Hg in Hx. lia.
        - simpl. tauto. }
      destruct r as [|dr rl rr].
      { intros [= <-]. rewrite (In_inorder_Node x d). simpl (inorder nullptr).
        split.
        - intros Hx. split; [tauto|]. apply Hl in Hx. lia.
        - simpl. tauto. }
      destruct (findMin_Node (Node dr rl rr)) as (m & mr & Hm); [discriminate|].
      rewrite Hm. simpl data_of. cbv iota.
      destruct (remove (Node dr rl rr) m) as [r'|] eqn:Er; [|discriminate].
      simpl option_map. intros [= <-].
      pose proof (findMin_In _ _ _ _ Hm) as Hin.
      rewrite (In_inorder_Node x m), (In_inorder_Node x d), (IHr m r' Br Er).
      pose proof (Hg m Hin).
      split.
      * intros [Hx|[->|[Hx ?]]].
        -- split; [tauto|]. apply Hl in Hx. lia.
        -- split; [auto|lia].
        -- split; [tauto|]. apply Hg in Hx. lia.
      * intros [[Hx|[->|Hx]] Hne]; [tauto|congruence|].
        destruct (Z.eq_dec x m); tauto.
Qed.

Lemma bst_remove (t t' : tree) (v : Z) :
  bst t -> remove t v = Some t' -> bst t'.
Proof.
  revert v t'. induction t as [|d l IHl r IHr]; intros v t' Hb Hr.
  - simpl in Hr. injection Hr as <-. exact I.
  - pose proof Hb as (Hl & Hg & Bl & Br).
    rewrite remove_Node in Hr. revert Hr. cmp.
    + destruct (remove l v) as [l'|] eqn:El; [|discriminate].
      simpl. intros [= <-]. repeat split; eauto.
      rewrite Forall_forall in *. intros x Hx.
      apply (In_remove l l' v x Bl El) in Hx. apply Hl, Hx.
    + destruct (remove r v) as [r'|] eqn:Er; [|discriminate].
      simpl. intros [= <-]. repeat split; eauto.
      rewrite Forall_forall in *. intros x Hx.
      apply (In_remove r r' v x Br Er) in Hx. apply Hg, Hx.
    + destruct l as [|dl ll lr]; [now intros [= <-]|].
      destruct r as [|dr rl rr]; [now intros [= <-]|].
      destruct (findMin_Node (Node dr rl rr)) as (m & mr & Hm); [discriminate|].
      rewrite Hm. simpl data_of. cbv iota.
      destruct (remove (Node dr rl rr) m) as [r'|] eqn:Er; [|discriminate].
      simpl option_map. intros [= <-].
      pose proof (findMin_In _ _ _ _ Hm) as Hin.
      pose proof (remove_min _ _ _ _ _ Br Hm Er) as Hmin.
      rewrite Forall_forall in Hl, Hg. pose proof (Hg m Hin).
      split; [|split; [|split]].
      * rewrite Forall_forall. intros x Hx. apply Hl in Hx. lia.
      * apply bst_sorted in Br. rewrite Hmin in Br.
        inversion Br; subst. assumption.
      * assumption.
      * eapply IHr; eauto.
Qed.

Lemma remove_gone (t t' : tree) (v : Z) :
  bst t -> remove t v = Some t' -> ~ In v (inorder t').
Proof.
  intros Hb Hr Hin. apply (In_remove t t' v v Hb Hr) in Hin. tauto.
Qed.

Lemma remove_insert (vb : bool) (t : tree) (v : Z) :
  ~ In v (inorder t) -> remove (fst (insert vb t v)) v = Some t.
Proof.
  induction t as [|d l IHl r IHr].
  - intros _. simpl insert. simpl fst. rewrite remove_Node. cmp; try lia.
    reflexivity.
  - rewrite In_inorder_Node. intros Hn. rewrite fst_insert_Node.
    destruct (Z.ltb_spec v d) as [H|H].
    + rewrite remove_Node. cmp; try lia. rewrite IHl by tauto. reflexivity.
    + rewrite Z.gtb_ltb. destruct (Z.ltb_spec d v) as [H'|H'].
      * rewrite remove_Node. cmp; try lia. rewrite IHr by tauto. reflexivity.
      * exfalso. apply Hn. right. left. lia.
Qed.

(** *** [findMax] *)

Lemma findMax_loop_last (d : Z) (r : tree) (xs : list Z) (dflt : Z) :
  last (xs ++ d :: inorder r) dflt = findMax_loop d r.
Proof.
  revert d xs. induction r as [|d' l _ r' IHr]; intros d xs.
  - simpl. apply last_last.
  - simpl. 
    replace (xs ++ d :: inorder l ++ d' :: inorder r')
      with ((xs ++ d :: inorder l) ++ d' :: inorder r')
      by (rewrite <- app_assoc; reflexivity).
    apply IHr.
Qed.

Lemma findMax_last (t : tree) : findMax t = last (inorder t) (-1).
Proof.
  destruct t as [|d l r]; [reflexivity|].
  simpl. symmetry. apply findMax_loop_last.
Qed.

Lemma sorted_last_max (xs : list Z) (dflt : Z) :
  StronglySorted Z.lt xs -> Forall (fun x => x <= last xs dflt) xs.
Proof.
  induction 1 as [|a xs Hs IH Hf].
  - constructor.
  - destruct xs as [|b ys].
    + simpl. constructor; [lia|constructor].
    + change (last (a :: b :: ys) dflt) with (last (b :: ys) dflt).
      constructor; [|exact IH].
      inversion Hf; subst. inversion IH; subst. lia.
Qed.

(** *** The public methods and sequences of requests *)

Lemma add_eq (v : Z) (self : BST) :
  Public.add v self =
  (mkBST (fst (insert (verbose self) (root self) v)) (verbose self),
   snd (insert (verbose self) (root self) v)).
Proof.
  unfold Public.add. now destruct (insert (verbose self) (root self) v).
Qed.

Lemma remove_eq (v : Z) (self : BST) :
  Public.remove v self =
  option_map (fun n => mkBST n (verbose self)) (remove (root self) v).
Proof.
  unfold Public.remove. now destruct (remove (root self) v).
Qed.

Lemma step_total (o : op) (self : BST) :
  exists self' out, step o self = Some (self', out).
Proof.
  destruct o as [v|v]; simpl.
  - destruct (Public.add v self) as [s out]. eauto.
  - rewrite remove_eq. destruct (remove_total (root self) v) as [t' ->].
    simpl. eauto.
Qed.

Lemma run_total (ops : list op) (self : BST) :
  exists self' out, run ops self = Some (self', out).
Proof.
  revert self. induction ops as [|o ops IH]; intros self; simpl.
  - eauto.
  - destruct (step_total o self) as (s1 & o1 & ->).
    destruct (IH s1) as (s2 & o2 & ->). eauto.
Qed.

Lemma step_reachable (o : op) (self self' : BST) (out : list string) :
  reachable (root self) -> step o self = Some (self', out) ->
  reachable (root self').
Proof.
  intros Hr. destruct o as [v|v]; simpl.
  - rewrite add_eq. intros [= <- _]. simpl. now apply reachable_insert.
  - rewrite remove_eq. destruct (remove (root self) v) as [t'|] eqn:E;
      [|discriminate].
    simpl. intros [= <- _]. simpl. eapply reachable_remove; eauto.
Qed.

Lemma run_reachable (ops : list op) (self self' : BST) (out : list string) :
  reachable (root self) -> run ops self = Some (self', out) ->
  reachable (root self').
Proof.
  revert self out. induction ops as [|o ops IH]; intros self out Hr; simpl.
  - now intros [= <- _].
  - destruct (step o self) as [[s1 o1]|] eqn:E1; [|discriminate].
    destruct (run ops s1) as [[s2 o2]|] eqn:E2; [|discriminate].
    intros [= <- _]. eapply IH; [|exact E2].
    eapply step_reachable; eauto.
Qed.

Lemma reachable_bst (t : tree) : reachable t -> bst t.
Proof.
  induction 1 as [|vb t v _ IH|t t' v _ IH Hr].
  - exact I.
  - now apply bst_insert.
  - eapply bst_remove; eauto.
Qed.

(** With either setting of the flag a sequence of requests ends in the same
    tree, the flag itself is left as it was, and nothing is written when it is
    off. *)
Lemma run_flag (ops : list op) (t : tree) :
  exists t' out,
    run ops (mkBST t true) = Some (mkBST t' true, out) /\
    run ops (mkBST t false) = Some (mkBST t' false, []).
Proof.
  revert t. induction ops as [|o ops IH]; intros t.
  - exists t, []. split; reflexivity.
  - destruct o as [v|v]; simpl run; simpl step.
    + rewrite !add_eq. simpl root. simpl verbose.
      rewrite (insert_flag false true t v), insert_quiet.
      destruct (IH (fst (insert true t v))) as (t' & out & -> & ->).
      eexists _, _. split; reflexivity.
    + rewrite !remove_eq. simpl root. simpl verbose.
      destruct (remove_total t v) as [t1 ->]. simpl option_map.
      destruct (IH t1) as (t' & out & -> & ->).
      eexists _, _. split; reflexivity.
Qed.

(** *** [testPerformance] *)

Lemma testPerformance_verbose (rand : N -> Z) (elapsed : Z -> string)
    (self : BST) :
  verbose (fst (Public.testPerformance rand elapsed self)) = true.
Proof.
  unfold Public.testPerformance.
  destruct (Public.testPerformanceHelper rand elapsed 100 0 _) as [s1 o1].
  destruct (Public.testPerformanceHelper rand elapsed 1000 100 _) as [s2 o2].
  destruct (Public.testPerformanceHelper rand elapsed 10000 1100 _) as [s3 o3].
  destruct (Public.testPerformanceHelper rand elapsed 100000 11100 _) as [s4 o4].
  reflexivity.
Qed.

Lemma constructed_verbose (self : BST) : constructed self -> verbose self = true.
Proof.
  induction 1 as [|self v _ IH|self self' v _ IH Hr|rand elapsed self _ IH].
  - reflexivity.
  - rewrite add_eq. exact IH.
  - rewrite remove_eq in Hr. destruct (remove (root self) v); [|discriminate].
    injection Hr as <-. exact IH.
  - apply testPerformance_verbose.
Qed.

(** ** The claims of the specification *)

(** C1: every tree reachable from the empty tree by [insert] and [remove]
    satisfies the ordering invariant (at each node the left subtree holds only
    strictly smaller values and the right subtree only strictly greater ones)
    and, equivalently, has a strictly increasing in-order traversal; every
    sequence of add and remove requests on a new object runs to completion
    and ends in such a tree. *)
Theorem reachable_ordered :
  (forall t, reachable t -> bst t /\ StronglySorted Z.lt (inorder t)) /\
  (forall ops, exists self out,
      run ops BST_new = Some (self, out) /\
      bst (root self) /\ StronglySorted Z.lt (inorder (root self))).
Proof.
  split.
  - intros t Hr. apply reachable_bst in Hr. split; [exact Hr|].
    now apply bst_sorted.
  - intros ops. destruct (run_total ops BST_new) as (self & out & E).
    exists self, out. split; [exact E|].
    assert (bst (root self)) as Hb.
    { apply reachable_bst. eapply run_reachable; [|exact E].
      apply reachable_empty. }
    split; [exact Hb|]. now apply bst_sorted.
Qed.

Lemma reachable_ordered_witness :
  bst (fst (insert true (fst (insert true nullptr 5)) 3)) /\
  StronglySorted Z.lt (inorder (fst (insert true (fst (insert true nullptr 5)) 3))).
Proof.
  apply (proj1 reachable_ordered).
  apply reachable_insert, reachable_insert, reachable_empty.
Defined.

(** C2: [insert] adds a node holding [v] exactly when no node holds [v]: on a
    search tree that holds [v] the tree is returned as it is, and when [v] is
    absent one node is added and [v] appears in the traversal at one place,
    the rest unchanged.  For every tree, inserting [v] a second time gives the
    same in-order traversal as inserting it once. *)
Theorem insert_iff_absent (vb vb' : bool) (t : tree) (v : Z) :
  (bst t -> In v (inorder t) -> fst (insert vb t v) = t) /\
  (~ In v (inorder t) ->
   size (fst (insert vb t v)) = S (size t) /\
   exists xs ys,
     inorder t = xs ++ ys /\ inorder (fst (insert vb t v)) = xs ++ v :: ys) /\
  inorder (fst (insert vb' (fst (insert vb t v)) v)) =
  inorder (fst (insert vb t v)).
Proof.
  split; [|split].
  - apply insert_present.
  - intros Hn. split; [now apply size_insert_absent | now apply insert_absent].
  - now rewrite insert_twice.
Qed.

Lemma insert_iff_absent_witness :
  fst (insert true (Node 10 nullptr nullptr) 10) = Node 10 nullptr nullptr /\
  size (fst (insert true (Node 10 nullptr nullptr) 20)) = 2%nat.
Proof.
  split.
  - apply (proj1 (insert_iff_absent true true (Node 10 nullptr nullptr) 10)).
    + simpl. repeat split; constructor.
    + simpl. left. reflexivity.
  - apply (proj1 (proj2 (insert_iff_absent true true (Node 10 nullptr nullptr) 20))).
    simpl. lia.
Defined.

(** C3: [findMaximum] returns -1 on the empty tree; on a non-empty tree it
    returns the value of the rightmost node (the last value of the in-order
    traversal), which on a search tree is a value of the tree that no other
    value exceeds. *)
Theorem findMaximum_largest (self : BST) :
  (root self = nullptr -> Public.findMaximum self = -1) /\
  (root self <> nullptr ->
   Public.findMaximum self = last (inorder (root self)) (-1) /\
   In (Public.findMaximum self) (inorder (root self)) /\
   (bst (root self) ->
    Forall (fun x => x <= Public.findMaximum self) (inorder (root self)))).
Proof.
  unfold Public.findMaximum. split.
  - intros ->. reflexivity.
  - intros Hne. rewrite findMax_last. split; [reflexivity|]. split.
    + destruct (root self) as [|d l r]; [congruence|].
      simpl. destruct (exists_last (l := inorder l ++ d :: inorder r))
        as (xs & a & E).
      { destruct (inorder l); discriminate. }
      rewrite E, last_last. apply in_or_app. right. now left.
    + intros Hb. apply sorted_last_max. now apply bst_sorted.
Qed.

Lemma findMaximum_largest_witness :
  Public.findMaximum BST_new = -1 /\
  Forall (fun x => x <= Public.findMaximum (mkBST (Node 5 nullptr (Node 8 nullptr nullptr)) true))
         (inorder (Node 5 nullptr (Node 8 nullptr nullptr))).
Proof.
  split.
  - apply (proj1 (findMaximum_largest BST_new)). reflexivity.
  - apply (proj2 (findMaximum_largest
                    (mkBST (Node 5 nullptr (Node 8 nullptr nullptr)) true))).
    + simpl. discriminate.
    + simpl. repeat split; repeat constructor.
Defined.

(** C4: removing a value that no node holds returns the tree as it is: the
    private [remove] returns the same subtree, the public [remove] leaves the
    object unchanged, and nothing is written. *)
Theorem remove_absent_unchanged (self : BST) (v : Z) :
  ~ In v (inorder (root self)) ->
  remove (root self) v = Some (root self) /\
  Public.remove v self = Some self /\
  step (Remove v) self = Some (self, []).
Proof.
  intros Hn. pose proof (remove_absent _ _ Hn) as E.
  assert (Public.remove v self = Some self) as E'.
  { rewrite remove_eq, E. destruct self. reflexivity. }
  repeat split; auto. simpl. now rewrite E'.
Qed.

Lemma remove_absent_unchanged_witness :
  Public.remove 7 (mkBST (Node 5 (Node 3 nullptr nullptr) nullptr) true) =
  Some (mkBST (Node 5 (Node 3 nullptr nullptr) nullptr) true).
Proof.
  apply (remove_absent_unchanged
           (mkBST (Node 5 (Node 3 nullptr nullptr) nullptr) true) 7).
  simpl. lia.
Defined.

(** C5: at a node that holds the value to remove and has two children,
    [remove] takes the leftmost node of the right subtree (the in-order
    successor, first in the traversal of that subtree), stores its value in
    the node and removes that value from the right subtree only, the left
    subtree staying as it is; on a search tree the traversal of the result is
    strictly increasing and no longer holds the removed value.  Removing 30
    after scenario A leaves 20, 40, 50, 60, 70, 80. *)
Theorem remove_two_children_successor :
  (forall d l r,
      l <> nullptr -> r <> nullptr -> bst (Node d l r) ->
      exists m mr r',
        findMin r = Node m nullptr mr /\
        inorder r = m :: inorder r' /\
        remove r m = Some r' /\
        remove (Node d l r) d = Some (Node m l r') /\
        StronglySorted Z.lt (inorder (Node m l r')) /\
        ~ In d (inorder (Node m l r'))) /\
  option_map (fun s => inorder (root (fst s)))
             (run (scenarioA_ops ++ [Remove 30]) BST_new) =
  Some [20; 40; 50; 60; 70; 80].
Proof.
  split; [|vm_compute; reflexivity].
  intros d l r Hl Hr Hb.
  destruct (remove_two_children d l r Hl Hr) as (m & mr & r' & Hm & Hr' & E).
  exists m, mr, r'.
  assert (bst r) as Br by apply Hb.
  repeat split; auto.
  - exact (remove_min r m nullptr mr r' Br Hm Hr').
  - apply bst_sorted. exact (bst_remove _ _ d Hb E).
  - exact (remove_gone _ _ d Hb E).
Qed.

Lemma remove_two_children_successor_witness :
  exists m mr r',
    findMin (Node 40 nullptr nullptr) = Node m nullptr mr /\
    inorder (Node 40 nullptr nullptr) = m :: inorder r' /\
    remove (Node 40 nullptr nullptr) m = Some r' /\
    remove (Node 30 (Node 20 nullptr nullptr) (Node 40 nullptr nullptr)) 30 =
      Some (Node m (Node 20 nullptr nullptr) r') /\
    StronglySorted Z.lt (inorder (Node m (Node 20 nullptr nullptr) r')) /\
    ~ In 30 (inorder (Node m (Node 20 nullptr nullptr) r')).
Proof.
  apply (proj1 remove_two_children_successor
           30 (Node 20 nullptr nullptr) (Node 40 nullptr nullptr)).
  - discriminate.
  - discriminate.
  - apply is_bst_bst. reflexivity.
Defined.

(** C6: inserting a value that no node holds and removing it at once gives
    back the tree there was before, and so the same in-order traversal. *)
Theorem insert_then_remove (vb : bool) (t : tree) (v : Z) :
  ~ In v (inorder t) ->
  exists t',
    remove (fst (insert vb t v)) v = Some t' /\
    inorder t' = inorder t /\ t' = t.
Proof.
  intros Hn. exists t. split; [now apply remove_insert|]. split; reflexivity.
Qed.

Lemma insert_then_remove_witness :
  exists t',
    remove (fst (insert true (Node 50 (Node 30 nullptr nullptr) nullptr) 40)) 40
      = Some t' /\
    inorder t' = inorder (Node 50 (Node 30 nullptr nullptr) nullptr) /\
    t' = Node 50 (Node 30 nullptr nullptr) nullptr.
Proof.
  apply (insert_then_remove true (Node 50 (Node 30 nullptr nullptr) nullptr) 40).
  simpl. lia.
Defined.

(** C7: at the node that holds the value to remove, [remove] returns the right
    child when there is no left child (a leaf gives the null pointer), and
    otherwise the left child when there is no right child.  Removing the leaf
    80 after scenario A leaves 20, 30, 40, 50, 60, 70 with maximum 70. *)
Theorem remove_at_most_one_child :
  (forall d r, remove (Node d nullptr r) d = Some r) /\
  (forall d dl ll lr,
      remove (Node d (Node dl ll lr) nullptr) d = Some (Node dl ll lr)) /\
  option_map (fun s => (inorder (root (fst s)), Public.findMaximum (fst s)))
             (run (scenarioA_ops ++ [Remove 80]) BST_new) =
  Some ([20; 30; 40; 50; 60; 70], 70).
Proof.
  split; [|split].
  - intros d r. rewrite remove_Node. cmp; try lia. reflexivity.
  - intros d dl ll lr. rewrite remove_Node. cmp; try lia. reflexivity.
  - vm_compute. reflexivity.
Qed.


(** C9: the verbose flag decides only what is written.  From every tree,
    every sequence of add and remove requests ends in the same tree, shape
    and values, whether the flag is on or off. *)
Theorem verbose_only_output (ops : list op) (t : tree) :
  option_map (fun s => root (fst s)) (run ops (mkBST t true)) =
  option_map (fun s => root (fst s)) (run ops (mkBST t false)) /\
  exists t', option_map (fun s => root (fst s)) (run ops (mkBST t true)) = Some t'.
Proof.
  destruct (run_flag ops t) as (t' & out & -> & ->). simpl. eauto.
Qed.

(** C10: in the two-child branch of [remove] the right subtree is not null, so
    [findMin] returns a node, which has no left child, the read of its [data]
    is defined, and the whole call returns a tree; no call of [remove] ever
    reads through the null pointer. *)
Theorem remove_successor_defined :
  (forall r, r <> nullptr ->
     findMin r <> nullptr /\ exists m, data_of (findMin r) = Some m) /\
  (forall d l r, l <> nullptr -> r <> nullptr ->
     exists m r', data_of (findMin r) = Some m /\ remove r m = Some r' /\
                  remove (Node d l r) d = Some (Node m l r')) /\
  (forall t v, remove t v <> None).
Proof.
  split; [|split].
  - intros r Hr. destruct (findMin_Node r Hr) as (m & mr & ->).
    split; [discriminate|]. exists m. reflexivity.
  - intros d l r Hl Hr.
    destruct (remove_two_children d l r Hl Hr) as (m & mr & r' & Hm & Hr' & E).
    exists m, r'. rewrite Hm. repeat split; auto.
  - intros t v. destruct (remove_total t v) as [t' ->]. discriminate.
Qed.

Lemma remove_successor_defined_witness :
  findMin (Node 70 (Node 60 nullptr nullptr) (Node 80 nullptr nullptr))
    <> nullptr /\
  exists m,
    data_of (findMin (Node 70 (Node 60 nullptr nullptr) (Node 80 nullptr nullptr)))
    = Some m.
Proof.
  apply (proj1 remove_successor_defined
           (Node 70 (Node 60 nullptr nullptr) (Node 80 nullptr nullptr))).
  discriminate.
Defined.

(** ** Further properties of the tree operations *)

(** *** Lists *)

Lemma filter_keep (f : Z -> bool) (xs : list Z) :
  (forall x, In x xs -> f x = true) -> filter f xs = xs.
Proof.
  induction xs as [|a xs IH]; simpl; intros H; [reflexivity|].
  rewrite (H a) by auto. rewrite IH by auto. reflexivity.
Qed.

Lemma filter_drop (f : Z -> bool) (xs : list Z) :
  (forall x, In x xs -> f x = false) -> filter f xs = [].
Proof.
  induction xs as [|a xs IH]; simpl; intros H; [reflexivity|].
  rewrite (H a) by auto. apply IH. auto.
Qed.

(** Two strictly increasing lists with the same members are equal. *)
Lemma sorted_ext (xs ys : list Z) :
  StronglySorted Z.lt xs -> StronglySorted Z.lt ys ->
  (forall x, In x xs <-> In x ys) -> xs = ys.
Proof.
  intros Hx. revert ys.
  induction Hx as [|a xs Hs IH Ha]; intros ys Hy Hm.
  - destruct ys as [|b ys]; [reflexivity|].
    exfalso. apply (Hm b). now left.
  - destruct Hy as [|b ys Hs' Hb].
    { exfalso. apply (Hm a). now left. }
    rewrite Forall_forall in Ha, Hb.
    assert (a = b) as ->.
    { destruct (proj1 (Hm a) (or_introl eq_refl)) as [E|Hin]; [auto|].
      destruct (proj2 (Hm b) (or_introl eq_refl)) as [E|Hin']; [auto|].
      apply Hb in Hin. apply Ha in Hin'. lia. }
    f_equal. apply IH; [assumption|].
    intros x. split; intros Hin.
    + destruct (proj1 (Hm x) (or_intror Hin)) as [E|H']; [|assumption].
      apply Ha in Hin. lia.
    + destruct (proj2 (Hm x) (or_intror Hin)) as [E|H']; [|assumption].
      apply Hb in Hin. lia.
Qed.

Lemma length_inorder (t : tree) : List.length (inorder t) = size t.
Proof.
  induction t as [|d l IHl r IHr]; [reflexivity|].
  simpl. rewrite length_app. simpl. lia.
Qed.

(** *** What [insert] and [remove] do to the in-order traversal *)

(** X1: On a search tree [insert] puts the value at its place in the sorted
    traversal: first the values below it, then the value, then the values
    above it. *)
Theorem insert_inorder (vb : bool) (t : tree) (v : Z) :
  bst t ->
  inorder (fst (insert vb t v)) =
  filter (fun x => x <? v) (inorder t) ++ v ::
  filter (fun x => v <? x) (inorder t).
Proof.
  induction t as [|d l IHl r IHr]; [reflexivity|].
  intros (Hl & Hg & Bl & Br). rewrite Forall_forall in Hl, Hg.
  rewrite fst_insert_Node.
  destruct (Z.ltb_spec v d) as [H|H].
  - simpl inorder. rewrite (IHl Bl), !filter_app. simpl filter.
    replace (d <? v) with false by (symmetry; apply Z.ltb_ge; lia).
    replace (v <? d) with true by (symmetry; apply Z.ltb_lt; lia).
    rewrite (filter_drop (fun x => x <? v) (inorder r)).
    2:{ intros x Hx. apply Hg in Hx. apply Z.ltb_ge. lia. }
    rewrite (filter_keep (fun x => v <? x) (inorder r)).
    2:{ intros x Hx. apply Hg in Hx. apply Z.ltb_lt. lia. }
    rewrite app_nil_r, <- app_assoc. reflexivity.
  - rewrite Z.gtb_ltb. destruct (Z.ltb_spec d v) as [H'|H'].
    + simpl inorder. rewrite (IHr Br), !filter_app. simpl filter.
      replace (d <? v) with true by (symmetry; apply Z.ltb_lt; lia).
      replace (v <? d) with false by (symmetry; apply Z.ltb_ge; lia).
      rewrite (filter_keep (fun x => x <? v) (inorder l)).
      2:{ intros x Hx. apply Hl in Hx. apply Z.ltb_lt. lia. }
      rewrite (filter_drop (fun x => v <? x) (inorder l)).
      2:{ intros x Hx. apply Hl in Hx. apply Z.ltb_ge. lia. }
      simpl. rewrite <- app_assoc. reflexivity.
    + assert (v = d) by lia. subst v.
      simpl inorder. rewrite !filter_app. simpl filter.
      rewrite Z.ltb_irrefl.
      rewrite (filter_keep (fun x => x <? d) (inorder l)).
      2:{ intros x Hx. apply Hl in Hx. apply Z.ltb_lt. lia. }
      rewrite (filter_drop (fun x => d <? x) (inorder l)).
      2:{ intros x Hx. apply Hl in Hx. apply Z.ltb_ge. lia. }
      rewrite (filter_drop (fun x => x <? d) (inorder r)).
      2:{ intros x Hx. apply Hg in Hx. apply Z.ltb_ge. lia. }
      rewrite (filter_keep (fun x => d <? x) (inorder r)).
      2:{ intros x Hx. apply Hg in Hx. apply Z.ltb_lt. lia. }
      rewrite app_nil_r. reflexivity.
Qed.

Lemma insert_inorder_witness :
  inorder (fst (insert true (Node 50 (Node 30 nullptr nullptr) nullptr) 40)) =
  filter (fun x => x <? 40)
         (inorder (Node 50 (Node 30 nullptr nullptr) nullptr)) ++ 40 ::
  filter (fun x => 40 <? x)
         (inorder (Node 50 (Node 30 nullptr nullptr) nullptr)).
Proof.
  apply (insert_inorder true (Node 50 (Node 30 nullptr nullptr) nullptr) 40).
  apply is_bst_bst. reflexivity.
Defined.

Lemma remove_filter (t t' : tree) (v : Z) :
  bst t -> remove t v = Some t' ->
  inorder t' = filter (fun x => negb (x =? v)) (inorder t).
Proof.
  revert v t'. induction t as [|d l IHl r IHr]; intros v t' Hb Hr.
  - simpl in Hr. injection Hr as <-. reflexivity.
  - pose proof Hb as (Hl & Hg & Bl & Br). rewrite Forall_forall in Hl, Hg.
    assert (forall w, w <= d ->
              filter (fun x => negb (x =? w)) (inorder r) = inorder r) as Kr.
    { intros w Hw. apply filter_keep. intros x Hx. apply Hg in Hx.
      apply negb_true_iff, Z.eqb_neq. lia. }
    assert (forall w, d <= w ->
              filter (fun x => negb (x =? w)) (inorder l) = inorder l) as Kl.
    { intros w Hw. apply filter_keep. intros x Hx. apply Hl in Hx.
      apply negb_true_iff, Z.eqb_neq. lia. }
    simpl inorder. rewrite filter_app. simpl filter.
    rewrite remove_Node in Hr. revert Hr. cmp.
    + destruct (remove l v) as [l'|] eqn:El; [|discriminate].
      simpl option_map. intros [= <-].
      replace (d =? v) with false by (symmetry; apply Z.eqb_neq; lia).
      simpl negb. cbv iota. rewrite (Kr v) by lia.
      simpl inorder. now rewrite (IHl v l' Bl El).
    + destruct (remove r v) as [r'|] eqn:Er; [|discriminate].
      simpl option_map. intros [= <-].
      replace (d =? v) with false by (symmetry; apply Z.eqb_neq; lia).
      simpl negb. cbv iota. rewrite (Kl v) by lia.
      simpl inorder. now rewrite (IHr v r' Br Er).
    + assert (v = d) by lia. subst v.
      rewrite Z.eqb_refl. simpl negb. cbv iota.
      rewrite (Kl d), (Kr d) by lia.
      destruct l as [|dl ll lr]; [now intros [= <-]|].
      destruct r as [|dr rl rr].
      { intros [= <-]. now rewrite app_nil_r. }
      destruct (findMin_Node (Node dr rl rr)) as (m & mr & Hm); [discriminate|].
      rewrite Hm. simpl data_of. cbv iota.
      destruct (remove (Node dr rl rr) m) as [r'|] eqn:Er; [|discriminate].
      simpl option_map. intros [= <-].
      rewrite (remove_min _ _ _ _ _ Br Hm Er). reflexivity.
Qed.

(** X2: On a search tree [remove] returns a tree whose traversal is the old one
    without the value, everything else in its place. *)
Theorem remove_inorder (t : tree) (v : Z) :
  bst t ->
  exists t',
    remove t v = Some t' /\
    inorder t' = filter (fun x => negb (x =? v)) (inorder t).
Proof.
  intros Hb. destruct (remove_total t v) as [t' E].
  exists t'. split; [exact E|]. now apply remove_filter.
Qed.

Lemma remove_inorder_witness :
  exists t',
    remove (Node 50 (Node 30 nullptr nullptr) (Node 70 nullptr nullptr)) 50
      = Some t' /\
    inorder t' =
    filter (fun x => negb (x =? 50))
      (inorder (Node 50 (Node 30 nullptr nullptr) (Node 70 nullptr nullptr))).
Proof.
  apply (remove_inorder
           (Node 50 (Node 30 nullptr nullptr) (Node 70 nullptr nullptr)) 50).
  apply is_bst_bst. reflexivity.
Defined.

(** *** How the operations compose *)

(** X3: On a search tree the order of two insertions does not change the set of
    values held: both orders give the same in-order traversal. *)
Theorem insert_insert_commute (vb : bool) (t : tree) (a b : Z) :
  bst t ->
  inorder (fst (insert vb (fst (insert vb t a)) b)) =
  inorder (fst (insert vb (fst (insert vb t b)) a)).
Proof.
  intros Hb. apply sorted_ext.
  - apply bst_sorted. now do 2 apply bst_insert.
  - apply bst_sorted. now do 2 apply bst_insert.
  - intros x. rewrite !In_insert. tauto.
Qed.

Lemma insert_insert_commute_witness :
  inorder (fst (insert true (fst (insert true (Node 5 nullptr nullptr) 9)) 7)) =
  inorder (fst (insert true (fst (insert true (Node 5 nullptr nullptr) 7)) 9)).
Proof.
  apply (insert_insert_commute true (Node 5 nullptr nullptr) 9 7).
  apply is_bst_bst. reflexivity.
Defined.

(** X4: On a search tree two removals can be done in either order: both orders
    return a tree, and the two trees have the same in-order traversal. *)
Theorem remove_remove_commute (t : tree) (a b : Z) :
  bst t ->
  exists ta tab tb tba,
    remove t a = Some ta /\ remove ta b = Some tab /\
    remove t b = Some tb /\ remove tb a = Some tba /\
    inorder tab = inorder tba.
Proof.
  intros Hb.
  destruct (remove_total t a) as [ta Ea].
  destruct (remove_total ta b) as [tab Eab].
  destruct (remove_total t b) as [tb Eb].
  destruct (remove_total tb a) as [tba Eba].
  exists ta, tab, tb, tba. repeat split; auto.
  pose proof (bst_remove _ _ _ Hb Ea) as Ba.
  pose proof (bst_remove _ _ _ Hb Eb) as Bb.
  apply sorted_ext.
  - apply bst_sorted. eapply bst_remove; [exact Ba|exact Eab].
  - apply bst_sorted. eapply bst_remove; [exact Bb|exact Eba].
  - intros x.
    rewrite (In_remove ta tab b x Ba Eab), (In_remove t ta a x Hb Ea).
    rewrite (In_remove tb tba a x Bb Eba), (In_remove t tb b x Hb Eb).
    tauto.
Qed.

Lemma remove_remove_commute_witness :
  exists ta tab tb tba,
    remove (Node 5 (Node 3 nullptr nullptr) (Node 8 nullptr nullptr)) 5
      = Some ta /\
    remove ta 3 = Some tab /\
    remove (Node 5 (Node 3 nullptr nullptr) (Node 8 nullptr nullptr)) 3
      = Some tb /\
    remove tb 5 = Some tba /\
    inorder tab = inorder tba.
Proof.
  apply (remove_remove_commute
           (Node 5 (Node 3 nullptr nullptr) (Node 8 nullptr nullptr)) 5 3).
  apply is_bst_bst. reflexivity.
Defined.

(** X5: Removing a value twice is removing it once: on a search tree the second
    [remove] returns the tree it was given. *)
Theorem remove_twice (t : tree) (v : Z) :
  bst t -> exists t', remove t v = Some t' /\ remove t' v = Some t'.
Proof.
  intros Hb. destruct (remove_total t v) as [t' E].
  exists t'. split; [exact E|].
  apply remove_absent. eapply remove_gone; eauto.
Qed.

Lemma remove_twice_witness :
  exists t',
    remove (Node 5 (Node 3 nullptr nullptr) (Node 8 nullptr nullptr)) 5
      = Some t' /\
    remove t' 5 = Some t'.
Proof.
  apply (remove_twice
           (Node 5 (Node 3 nullptr nullptr) (Node 8 nullptr nullptr)) 5).
  apply is_bst_bst. reflexivity.
Defined.

(** X6: Removing a value that a search tree holds and inserting it again gives
    back the same in-order traversal (the shape may differ). *)
Theorem remove_then_insert (vb : bool) (t : tree) (v : Z) :
  bst t -> In v (inorder t) ->
  exists t',
    remove t v = Some t' /\ inorder (fst (insert vb t' v)) = inorder t.
Proof.
  intros Hb Hin. destruct (remove_total t v) as [t' E].
  exists t'. split; [exact E|].
  pose proof (bst_remove _ _ _ Hb E) as Hb'.
  apply sorted_ext.
  - apply bst_sorted. now apply bst_insert.
  - now apply bst_sorted.
  - intros x. rewrite In_insert, (In_remove t t' v x Hb E).
    destruct (Z.eq_dec x v) as [->|Hne]; tauto.
Qed.

Lemma remove_then_insert_witness :
  exists t',
    remove (Node 5 (Node 3 nullptr nullptr) (Node 8 nullptr nullptr)) 5
      = Some t' /\
    inorder (fst (insert true t' 5)) =
    inorder (Node 5 (Node 3 nullptr nullptr) (Node 8 nullptr nullptr)).
Proof.
  apply (remove_then_insert true
           (Node 5 (Node 3 nullptr nullptr) (Node 8 nullptr nullptr)) 5).
  - apply is_bst_bst. reflexivity.
  - simpl. auto.
Defined.

(** X7: Removing a value that a search tree holds takes away exactly one node. *)
Theorem remove_present_size (t : tree) (v : Z) :
  bst t -> In v (inorder t) ->
  exists t', remove t v = Some t' /\ S (size t') = size t.
Proof.
  intros Hb Hin. destruct (remove_total t v) as [t' E].
  exists t'. split; [exact E|].
  revert v t' Hb Hin E.
  induction t as [|d l IHl r IHr]; intros v t' Hb Hin Hr; [destruct Hin|].
  pose proof Hb as (Hl & Hg & Bl & Br). rewrite Forall_forall in Hl, Hg.
  apply In_inorder_Node in Hin.
  rewrite remove_Node in Hr. revert Hr. cmp.
  - destruct (remove l v) as [l'|] eqn:El; [|discriminate].
    simpl option_map. intros [= <-].
    assert (In v (inorder l)) as Hv.
    { destruct Hin as [?|[->|Hx]]; [assumption|lia|]. apply Hg in Hx. lia. }
    simpl. rewrite <- (IHl v l' Bl Hv El). reflexivity.
  - destruct (remove r v) as [r'|] eqn:Er; [|discriminate].
    simpl option_map. intros [= <-].
    assert (In v (inorder r)) as Hv.
    { destruct Hin as [Hx|[->|?]]; [|lia|assumption]. apply Hl in Hx. lia. }
    simpl. rewrite <- (IHr v r' Br Hv Er). lia.
  - destruct l as [|dl ll lr]; [now intros [= <-]|].
    destruct r as [|dr rl rr].
    { intros [= <-]. simpl. lia. }
    destruct (findMin_Node (Node dr rl rr)) as (m & mr & Hm); [discriminate|].
    rewrite Hm. simpl data_of. cbv iota.
    destruct (remove (Node dr rl rr) m) as [r'|] eqn:Er; [|discriminate].
    simpl option_map. intros [= <-].
    pose proof (IHr m r' Br (findMin_In _ _ _ _ Hm) Er) as Hs.
    change (size (Node m (Node dl ll lr) r'))
      with (S (size (Node dl ll lr) + size r')).
    change (size (Node d (Node dl ll lr) (Node dr rl rr)))
      with (S (size (Node dl ll lr) + size (Node dr rl rr))).
    lia.
Qed.

Lemma remove_present_size_witness :
  exists t',
    remove (Node 5 (Node 3 nullptr nullptr) (Node 8 nullptr nullptr)) 5
      = Some t' /\
    S (size t') =
    size (Node 5 (Node 3 nullptr nullptr) (Node 8 nullptr nullptr)).
Proof.
  apply (remove_present_size
           (Node 5 (Node 3 nullptr nullptr) (Node 8 nullptr nullptr)) 5).
  - apply is_bst_bst. reflexivity.
  - simpl. auto.
Defined.

(** *** [findMin] and [findMax] *)

Lemma findMin_hd (t : tree) : data_of (findMin t) = hd_error (inorder t).
Proof.
  induction t as [|d l IHl r _]; [reflexivity|].
  destruct l as [|dl ll lr]; [reflexivity|].
  change (findMin (Node d (Node dl ll lr) r)) with (findMin (Node dl ll lr)).
  rewrite IHl. simpl inorder.
  destruct (inorder ll ++ dl :: inorder lr) eqn:E; [|reflexivity].
  destruct (inorder ll); discriminate.
Qed.

(** X8: [findMin] on the null pointer returns the null pointer; on every tree the
    node it returns holds the first value of the in-order traversal, which on
    a search tree is a lower bound of all the values. *)
Theorem findMin_least (t : tree) :
  findMin nullptr = nullptr /\
  data_of (findMin t) = hd_error (inorder t) /\
  (bst t -> forall m, data_of (findMin t) = Some m ->
            In m (inorder t) /\ Forall (fun x => m <= x) (inorder t)).
Proof.
  split; [reflexivity|]. split; [apply findMin_hd|].
  intros Hb m Hm. rewrite findMin_hd in Hm.
  apply bst_sorted in Hb.
  destruct (inorder t) as [|a xs]; [discriminate|].
  injection Hm as ->. split; [now left|].
  inversion Hb as [|? ? _ Hf]; subst.
  constructor; [lia|]. eapply Forall_impl; [|exact Hf]. simpl. intros; lia.
Qed.

Lemma findMin_least_witness :
  In 3 (inorder (Node 5 (Node 3 nullptr nullptr) (Node 8 nullptr nullptr))) /\
  Forall (fun x => 3 <= x)
    (inorder (Node 5 (Node 3 nullptr nullptr) (Node 8 nullptr nullptr))).
Proof.
  apply (proj2 (proj2 (findMin_least
           (Node 5 (Node 3 nullptr nullptr) (Node 8 nullptr nullptr))))).
  - apply is_bst_bst. reflexivity.
  - reflexivity.
Defined.

Lemma findMax_loop_ge (r : tree) (d : Z) :
  Forall (fun x => d < x) (inorder r) -> bst r -> d <= findMax_loop d r.
Proof.
  revert d. induction r as [|d' l _ r' IHr]; intros d Hg Hb; simpl; [lia|].
  destruct Hb as (_ & Hg' & _ & Br').
  rewrite Forall_forall in Hg. specialize (Hg d').
  assert (d < d') by (apply Hg, In_inorder_Node; auto).
  specialize (IHr d' Hg' Br'). lia.
Qed.

Lemma findMax_loop_insert (vb : bool) (r : tree) (d v : Z) :
  Forall (fun x => d < x) (inorder r) -> bst r -> d < v ->
  findMax_loop d (fst (insert vb r v)) = Z.max (findMax_loop d r) v.
Proof.
  revert d. induction r as [|d' l _ r' IHr]; intros d Hg Hb Hv.
  - simpl. lia.
  - destruct Hb as (_ & Hg' & _ & Br').
    pose proof (findMax_loop_ge r' d' Hg' Br').
    rewrite fst_insert_Node. cmp; simpl findMax_loop.
    + lia.
    + rewrite (IHr d' Hg' Br') by lia. reflexivity.
    + lia.
Qed.

(** X9: After [add] on an object whose tree is a search tree, [findMaximum]
    returns the added value when the tree was empty, and otherwise the larger
    of the former maximum and the added value: the -1 returned for the empty
    tree does not count as a value. *)
Theorem findMaximum_add (self : BST) (v : Z) :
  bst (root self) ->
  Public.findMaximum (fst (Public.add v self)) =
  match root self with
  | nullptr => v
  | Node _ _ _ => Z.max (Public.findMaximum self) v
  end.
Proof.
  intros Hb. rewrite add_eq. unfold Public.findMaximum. simpl root.
  destruct (root self) as [|d l r]; [reflexivity|].
  destruct Hb as (_ & Hg & _ & Br).
  pose proof (findMax_loop_ge r d Hg Br).
  rewrite fst_insert_Node. cmp; simpl findMax.
  - lia.
  - now apply findMax_loop_insert.
  - lia.
Qed.

Lemma findMaximum_add_witness :
  Public.findMaximum (fst (Public.add (-5) BST_new)) = -5 /\
  Public.findMaximum (fst (Public.add 9 (mkBST (Node 5 nullptr nullptr) true)))
  = Z.max (Public.findMaximum (mkBST (Node 5 nullptr nullptr) true)) 9.
Proof.
  split.
  - apply (findMaximum_add BST_new (-5)). exact I.
  - apply (findMaximum_add (mkBST (Node 5 nullptr nullptr) true) 9).
    apply is_bst_bst. reflexivity.
Defined.

(** *** Rebuilding a tree *)

Lemma In_preorder (t : tree) (x : Z) : In x (preorder t) <-> In x (inorder t).
Proof.
  induction t as [|d l IHl r IHr]; simpl; [tauto|].
  rewrite !in_app_iff. simpl. rewrite IHl, IHr. intuition congruence.
Qed.

Lemma fold_insert_left (vb : bool) (xs : list Z) (d : Z) (a r : tree) :
  (forall x, In x xs -> x < d) ->
  fold_left (fun acc x => fst (insert vb acc x)) xs (Node d a r) =
  Node d (fold_left (fun acc x => fst (insert vb acc x)) xs a) r.
Proof.
  revert a. induction xs as [|x xs IH]; intros a H; [reflexivity|].
  cbn [fold_left]. rewrite fst_insert_Node.
  assert (x < d) by (apply H; now left).
  cmp; try lia. apply IH. intros y Hy. apply H. now right.
Qed.

Lemma fold_insert_right (vb : bool) (xs : list Z) (d : Z) (l a : tree) :
  (forall x, In x xs -> d < x) ->
  fold_left (fun acc x => fst (insert vb acc x)) xs (Node d l a) =
  Node d l (fold_left (fun acc x => fst (insert vb acc x)) xs a).
Proof.
  revert a. induction xs as [|x xs IH]; intros a H; [reflexivity|].
  cbn [fold_left]. rewrite fst_insert_Node.
  assert (d < x) by (apply H; now left).
  cmp; try lia. apply IH. intros y Hy. apply H. now right.
Qed.

Lemma fold_insert_preorder (vb : bool) (t : tree) :
  bst t ->
  fold_left (fun acc x => fst (insert vb acc x)) (preorder t) nullptr = t.
Proof.
  induction t as [|d l IHl r IHr]; [reflexivity|].
  intros (Hl & Hg & Bl & Br). rewrite Forall_forall in Hl, Hg.
  cbn [preorder fold_left insert fst]. rewrite fold_left_app.
  rewrite fold_insert_left by (intros x Hx; apply Hl, In_preorder, Hx).
  rewrite (IHl Bl).
  rewrite fold_insert_right by (intros x Hx; apply Hg, In_preorder, Hx).
  rewrite (IHr Br). reflexivity.
Qed.

Lemma run_adds (xs : list Z) (self : BST) :
  exists out,
    run (map Add xs) self =
    Some (mkBST (fold_left (fun acc x => fst (insert (verbose self) acc x))
                           xs (root self))
                (verbose self), out).
Proof.
  revert self. induction xs as [|x xs IH]; intros self.
  - exists []. destruct self. reflexivity.
  - simpl map. simpl run. rewrite add_eq.
    destruct (IH (mkBST (fst (insert (verbose self) (root self) x))
                        (verbose self))) as [out ->].
    simpl. eexists. reflexivity.
Qed.

(** X10: Adding the values of a search tree to a new object in pre-order rebuilds
    that very tree, shape and values; so every search tree can be reached
    from the empty tree. *)
Theorem preorder_rebuilds (t : tree) :
  bst t ->
  (exists out, run (map Add (preorder t)) BST_new = Some (mkBST t true, out)) /\
  reachable t.
Proof.
  intros Hb.
  destruct (run_adds (preorder t) BST_new) as [out E].
  simpl in E. rewrite (fold_insert_preorder true t Hb) in E.
  split; [eauto|].
  change t with (root (mkBST t true)).
  eapply run_reachable; [|exact E]. apply reachable_empty.
Qed.

Lemma preorder_rebuilds_witness :
  (exists out,
      run (map Add (preorder (Node 5 (Node 3 nullptr nullptr)
                                     (Node 8 nullptr nullptr))))
          BST_new =
      Some (mkBST (Node 5 (Node 3 nullptr nullptr) (Node 8 nullptr nullptr))
                  true, out)) /\
  reachable (Node 5 (Node 3 nullptr nullptr) (Node 8 nullptr nullptr)).
Proof.
  apply (preorder_rebuilds
           (Node 5 (Node 3 nullptr nullptr) (Node 8 nullptr nullptr))).
  apply is_bst_bst. reflexivity.
Defined.

(** *** What [insert] writes *)

Lemma snd_insert_Node (vb : bool) (d : Z) (l r : tree) (v : Z) :
  snd (insert vb (Node d l r) v) =
  if v <? d then
    trace vb ["Go left from "; show_int d; newline]%string ++
    snd (insert vb l v)
  else if v >? d then
    trace vb ["Go right from "; show_int d; newline]%string ++
    snd (insert vb r v)
  else [].
Proof.
  simpl. destruct (v <? d).
  - now destruct (insert vb l v).
  - destruct (v >? d); [now destruct (insert vb r v) | reflexivity].
Qed.

Lemma show_int_not_Insert (z : Z) : show_int z <> "Insert "%string.
Proof.
  unfold show_int. destruct (Z.to_int z) as [u|u].
  - destruct u; simpl; try discriminate;
      match goal with |- context [NilEmpty.string_of_uint ?u] =>
        destruct u; simpl; discriminate end.
  - simpl. discriminate.
Qed.

Lemma size_insert_le (vb : bool) (t : tree) (v : Z) :
  (size (fst (insert vb t v)) <= S (size t))%nat.
Proof.
  induction t as [|d l IHl r IHr]; [simpl; lia|].
  rewrite fst_insert_Node. cmp; simpl; lia.
Qed.

(** X11: With the flag off [insert] writes nothing.  With the flag on it writes
    the piece ["Insert "] once for each node it creates: once when the value
    is new on the search path, never for a duplicate. *)
Theorem insert_trace (t : tree) (v : Z) :
  snd (insert false t v) = [] /\
  (count_occ string_dec (snd (insert true t v)) "Insert "%string + size t
   = size (fst (insert true t v)))%nat.
Proof.
  split; [apply insert_quiet|].
  induction t as [|d l IHl r IHr].
  - simpl. destruct (string_dec "Insert " "Insert ") as [_|N]; [|congruence].
    destruct (string_dec (show_int v) "Insert ") as [E|_];
      [now apply show_int_not_Insert in E|].
    reflexivity.
  - rewrite fst_insert_Node, snd_insert_Node.
    assert (forall s rest,
              s <> "Insert "%string ->
              count_occ string_dec
                (trace true [s; show_int d; newline] ++ rest) "Insert "%string
              = count_occ string_dec rest "Insert "%string) as K.
    { intros s rest Hs. simpl.
      destruct (string_dec s "Insert "); [congruence|].
      destruct (string_dec (show_int d) "Insert ") as [E|_];
        [now apply show_int_not_Insert in E|].
      destruct (string_dec newline "Insert "); [discriminate|]. reflexivity. }
    cmp.
    + rewrite K by discriminate. simpl size. lia.
    + rewrite K by discriminate. simpl size. lia.
    + reflexivity.
Qed.

(** ** The performance test *)

Lemma add_random_spec (rand : N -> Z) (n : Z) (count : nat) (used : N)
    (self : BST) :
  verbose self = false ->
  snd (Public.add_random rand n count used self) = [] /\
  verbose (fst (Public.add_random rand n count used self)) = false /\
  (bst (root self) ->
   bst (root (fst (Public.add_random rand n count used self)))) /\
  (forall x, In x (inorder (root self)) ->
     In x (inorder (root (fst (Public.add_random rand n count used self))))) /\
  (0 < n -> (forall i, 0 <= rand i) ->
   forall x,
     In x (inorder (root (fst (Public.add_random rand n count used self)))) ->
     In x (inorder (root self)) \/ 0 <= x < n * 10) /\
  (size (root (fst (Public.add_random rand n count used self)))
   <= size (root self) + count)%nat.
Proof.
  revert used self. induction count as [|c IH]; intros used self Hv.
  - simpl. repeat split; auto. lia.
  - cbn [Public.add_random]. rewrite add_eq, Hv.
    set (v := Z.rem (rand used) (n * 10)).
    set (s1 := mkBST (fst (insert false (root self) v)) false).
    destruct (IH (N.succ used) s1 eq_refl) as (Ho & Hf & Hb & Hk & Hr & Hs).
    destruct (Public.add_random rand n c (N.succ used) s1) as [s2 o2].
    simpl fst in *. simpl snd in *. rewrite insert_quiet.
    split; [exact Ho|]. split; [exact Hf|]. split; [|split; [|split]].
    + intros B. apply Hb. simpl. now apply bst_insert.
    + intros x Hx. apply Hk. simpl. apply In_insert. now right.
    + intros Hn Hrand x Hx. destruct (Hr Hn Hrand x Hx) as [Hin|Hin]; [|now right].
      simpl in Hin. apply In_insert in Hin. destruct Hin as [->|Hin]; [|now left].
      right. apply Z.rem_bound_pos; [apply Hrand|lia].
    + pose proof (size_insert_le false (root self) v). simpl in Hs. lia.
Qed.

Lemma testPerformanceHelper_spec (rand : N -> Z) (elapsed : Z -> string)
    (n : Z) (used : N) (self : BST) :
  verbose self = false ->
  snd (Public.testPerformanceHelper rand elapsed n used self) =
    ["Added "; show_int n; " elements in "; elapsed n; " ms" ++ newline]%string /\
  verbose (fst (Public.testPerformanceHelper rand elapsed n used self)) = false /\
  (bst (root self) ->
   bst (root (fst (Public.testPerformanceHelper rand elapsed n used self)))) /\
  (forall x, In x (inorder (root self)) ->
     In x (inorder (root (fst (Public.testPerformanceHelper rand elapsed n used self))))) /\
  (0 < n -> (forall i, 0 <= rand i) ->
   forall x,
     In x (inorder (root (fst (Public.testPerformanceHelper rand elapsed n used self)))) ->
     In x (inorder (root self)) \/ 0 <= x < n * 10) /\
  (0 <= n ->
   Z.of_nat (size (root (fst (Public.testPerformanceHelper rand elapsed n used self))))
   <= Z.of_nat (size (root self)) + n).
Proof.
  intros Hv. unfold Public.testPerformanceHelper.
  destruct (add_random_spec rand n (Z.to_nat n) used self Hv)
    as (Ho & Hf & Hb & Hk & Hr & Hs).
  destruct (Public.add_random rand n (Z.to_nat n) used self) as [s o].
  simpl fst in *. simpl snd in *. subst o.
  repeat split; auto.
  intros Hn. apply Nat2Z.inj_le in Hs.
  rewrite Nat2Z.inj_add, Z2Nat.id in Hs by exact Hn. exact Hs.
Qed.

(** X12: Whatever the flag was, [testPerformance] writes the four report lines and
    nothing else: the insertions it makes are not traced. *)
Theorem testPerformance_report (rand : N -> Z) (elapsed : Z -> string)
    (self : BST) :
  snd (Public.testPerformance rand elapsed self) =
  ["Added "; "100"; " elements in "; elapsed 100; " ms" ++ newline;
   "Added "; "1000"; " elements in "; elapsed 1000; " ms" ++ newline;
   "Added "; "10000"; " elements in "; elapsed 10000; " ms" ++ newline;
   "Added "; "100000"; " elements in "; elapsed 100000; " ms" ++ newline]%string.
Proof.
  unfold Public.testPerformance.
  set (s0 := mkBST (root self) false).
  destruct (testPerformanceHelper_spec rand elapsed 100 0 s0 eq_refl)
    as (O1 & F1 & _).
  destruct (Public.testPerformanceHelper rand elapsed 100 0 s0) as [s1 o1].
  destruct (testPerformanceHelper_spec rand elapsed 1000 100 s1 F1)
    as (O2 & F2 & _).
  destruct (Public.testPerformanceHelper rand elapsed 1000 100 s1) as [s2 o2].
  destruct (testPerformanceHelper_spec rand elapsed 10000 1100 s2 F2)
    as (O3 & F3 & _).
  destruct (Public.testPerformanceHelper rand elapsed 10000 1100 s2) as [s3 o3].
  destruct (testPerformanceHelper_spec rand elapsed 100000 11100 s3 F3)
    as (O4 & F4 & _).
  destruct (Public.testPerformanceHelper rand elapsed 100000 11100 s3) as [s4 o4].
  simpl fst in *. simpl snd in *. subst o1 o2 o3 o4. reflexivity.
Qed.

Lemma testPerformance_bst (rand : N -> Z) (elapsed : Z -> string)
    (self : BST) :
  bst (root self) ->
  bst (root (fst (Public.testPerformance rand elapsed self))).
Proof.
  intros Hb. unfold Public.testPerformance.
  set (s0 := mkBST (root self) false).
  destruct (testPerformanceHelper_spec rand elapsed 100 0 s0 eq_refl)
    as (_ & F1 & B1 & _).
  destruct (Public.testPerformanceHelper rand elapsed 100 0 s0) as [s1 o1].
  destruct (testPerformanceHelper_spec rand elapsed 1000 100 s1 F1)
    as (_ & F2 & B2 & _).
  destruct (Public.testPerformanceHelper rand elapsed 1000 100 s1) as [s2 o2].
  destruct (testPerformanceHelper_spec rand elapsed 10000 1100 s2 F2)
    as (_ & F3 & B3 & _).
  destruct (Public.testPerformanceHelper rand elapsed 10000 1100 s2) as [s3 o3].
  destruct (testPerformanceHelper_spec rand elapsed 100000 11100 s3 F3)
    as (_ & F4 & B4 & _).
  destruct (Public.testPerformanceHelper rand elapsed 100000 11100 s3) as [s4 o4].
  simpl fst in *. auto.
Qed.

(** X13: [testPerformance] on a search tree leaves a search tree that still holds
    every value it held; it adds at most 111100 nodes, and when [rand()]
    returns no negative value every value it adds lies in 0 .. 999999. *)
Theorem testPerformance_tree (rand : N -> Z) (elapsed : Z -> string)
    (self : BST) :
  bst (root self) ->
  (forall i, 0 <= rand i) ->
  bst (root (fst (Public.testPerformance rand elapsed self))) /\
  (forall x, In x (inorder (root self)) ->
     In x (inorder (root (fst (Public.testPerformance rand elapsed self))))) /\
  (forall x,
     In x (inorder (root (fst (Public.testPerformance rand elapsed self)))) ->
     In x (inorder (root self)) \/ 0 <= x < 1000000) /\
  Z.of_nat (size (root (fst (Public.testPerformance rand elapsed self))))
  <= Z.of_nat (size (root self)) + 111100.
Proof.
  intros Hb Hrand. split; [now apply testPerformance_bst|].
  unfold Public.testPerformance.
  set (s0 := mkBST (root self) false).
  destruct (testPerformanceHelper_spec rand elapsed 100 0 s0 eq_refl)
    as (_ & F1 & _ & K1 & R1 & S1).
  destruct (Public.testPerformanceHelper rand elapsed 100 0 s0) as [s1 o1].
  destruct (testPerformanceHelper_spec rand elapsed 1000 100 s1 F1)
    as (_ & F2 & _ & K2 & R2 & S2).
  destruct (Public.testPerformanceHelper rand elapsed 1000 100 s1) as [s2 o2].
  destruct (testPerformanceHelper_spec rand elapsed 10000 1100 s2 F2)
    as (_ & F3 & _ & K3 & R3 & S3).
  destruct (Public.testPerformanceHelper rand elapsed 10000 1100 s2) as [s3 o3].
  destruct (testPerformanceHelper_spec rand elapsed 100000 11100 s3 F3)
    as (_ & F4 & _ & K4 & R4 & S4).
  destruct (Public.testPerformanceHelper rand elapsed 100000 11100 s3) as [s4 o4].
  simpl fst in *. simpl root in *.
  split; [|split].
  - intros x Hx. apply K4, K3, K2, K1, Hx.
  - intros x Hx.
    destruct (R4 ltac:(lia) Hrand x Hx) as [H4|H4]; [|right; lia].
    destruct (R3 ltac:(lia) Hrand x H4) as [H3|H3]; [|right; lia].
    destruct (R2 ltac:(lia) Hrand x H3) as [H2|H2]; [|right; lia].
    destruct (R1 ltac:(lia) Hrand x H2) as [H1|H1]; [|right; lia].
    now left.
  - specialize (S1 ltac:(lia)). specialize (S2 ltac:(lia)).
    specialize (S3 ltac:(lia)). specialize (S4 ltac:(lia)).
    lia.
Qed.

Lemma testPerformance_tree_witness :
  bst (root (fst (Public.testPerformance (fun _ => 0) (fun _ => "0"%string)
                    BST_new))).
Proof.
  exact (proj1 (testPerformance_tree (fun _ => 0) (fun _ => "0"%string) BST_new
                  I (fun _ => Z.le_refl 0))).
Defined.

(** ** [display] and [destroyTree] *)

Lemma printTree_rows (t : tree) (space : Z) :
  exists rows : list (Z * Z),
    printTree t space =
      flat_map (fun row => [setw (fst row) (show_int (snd row)); newline]) rows /\
    map snd rows = rev (inorder t) /\
    Forall (fun row => exists k, (1 <= k <= height t)%nat /\
                                 fst row = space + 5 * Z.of_nat k) rows.
Proof.
  revert space. induction t as [|d l IHl r IHr]; intros space.
  - exists []. repeat split; constructor.
  - destruct (IHl (space + 5)) as (rl & El & Ml & Wl).
    destruct (IHr (space + 5)) as (rr & Er & Mr & Wr).
    exists (rr ++ (space + 5, d) :: rl). split; [|split].
    + cbn [printTree]. rewrite El, Er, flat_map_app. reflexivity.
    + rewrite map_app. cbn [map snd inorder].
      rewrite Ml, Mr, rev_app_distr. cbn [rev]. rewrite <- app_assoc.
      reflexivity.
    + apply Forall_app. split; [|constructor].
      * eapply Forall_impl; [|exact Wr]. intros row (k & Hk & E).
        exists (S k). cbn [height]. split; [lia|]. rewrite E. lia.
      * exists 1%nat. cbn [height fst]. split; lia.
      * eapply Forall_impl; [|exact Wl]. intros row (k & Hk & E).
        exists (S k). cbn [height]. split; [lia|]. rewrite E. lia.
Qed.

Lemma sorted_rev (xs : list Z) :
  StronglySorted Z.lt xs -> StronglySorted Z.gt (rev xs).
Proof.
  induction 1 as [|a xs Hs IH Ha]; [constructor|].
  cbn [rev]. apply Forall_rev in Ha. revert IH Ha.
  generalize (rev xs) as ys. intros ys Hy.
  induction Hy as [|y ys Hy IHy Hf]; intros Hlt.
  - constructor; constructor.
  - inversion Hlt; subst. cbn [app]. constructor; [now apply IHy|].
    apply Forall_app. split; [assumption|]. constructor; [lia|constructor].
Qed.

Lemma printTree_levels (t : tree) (k : nat) :
  printTree t (5 * Z.of_nat k) =
  flat_map (fun row => [setw (5 * Z.of_nat (fst row)) (show_int (snd row));
                        newline])
           (levels t (S k)).
Proof.
  revert k. induction t as [|d l IHl r IHr]; intros k; [reflexivity|].
  cbn [printTree levels].
  replace (5 * Z.of_nat k + 5) with (5 * Z.of_nat (S k)) by lia.
  rewrite IHl, IHr, flat_map_app. reflexivity.
Qed.

Lemma map_snd_levels (t : tree) (k : nat) :
  map snd (levels t k) = rev (inorder t).
Proof.
  revert k. induction t as [|d l IHl r IHr]; intros k; [reflexivity|].
  cbn [levels inorder]. rewrite map_app. cbn [map snd].
  rewrite IHl, IHr, rev_app_distr. cbn [rev]. rewrite <- app_assoc.
  reflexivity.
Qed.

Lemma levels_depth (t : tree) :
  bst t ->
  forall k,
    levels t (S k) =
    map (fun v => ((k + depth t v)%nat, v)) (rev (inorder t)).
Proof.
  induction t as [|d l IHl r IHr]; intros Hb k; [reflexivity|].
  destruct Hb as (Hl & Hg & Bl & Br). rewrite Forall_forall in Hl, Hg.
  cbn [levels inorder]. rewrite rev_app_distr. cbn [rev].
  rewrite <- app_assoc. cbn [app]. rewrite map_app. cbn [map].
  rewrite (IHr Br (S k)), (IHl Bl (S k)).
  f_equal; [|f_equal].
  - apply map_ext_in. intros v Hv. apply in_rev, Hg in Hv.
    cbn [depth]. cmp; try lia. f_equal. lia.
  - cbn [depth]. cmp; try lia. f_equal. lia.
  - apply map_ext_in. intros v Hv. apply in_rev, Hl in Hv.
    cbn [depth]. cmp; try lia. f_equal. lia.
Qed.

(** X14: [display] writes the heading and then one line per node, from the
    rightmost node to the leftmost (the reverse of the in-order traversal);
    the value of a node at level [k], the root being at level 1 and a child
    one level below its parent, is set in a field of [5 * k] characters.  On
    a search tree the level of a value is the number of nodes that the search
    for it visits.  An empty tree gives the heading alone. *)
Theorem display_rows (self : BST) :
  display self =
    ("BST Structure:" ++ newline)%string ::
    flat_map (fun row => [setw (5 * Z.of_nat (fst row)) (show_int (snd row));
                          newline])
             (levels (root self) 1) /\
  map snd (levels (root self) 1) = rev (inorder (root self)) /\
  (bst (root self) ->
   levels (root self) 1 =
   map (fun v => (depth (root self) v, v)) (rev (inorder (root self)))).
Proof.
  split; [|split].
  - unfold display. f_equal. exact (printTree_levels (root self) 0).
  - apply map_snd_levels.
  - intros Hb. exact (levels_depth (root self) Hb 0).
Qed.

Lemma display_rows_witness :
  levels (Node 50 (Node 30 nullptr (Node 40 nullptr nullptr))
                  (Node 70 nullptr nullptr)) 1 =
  map (fun v => (depth (Node 50 (Node 30 nullptr (Node 40 nullptr nullptr))
                                (Node 70 nullptr nullptr)) v, v))
      (rev (inorder (Node 50 (Node 30 nullptr (Node 40 nullptr nullptr))
                             (Node 70 nullptr nullptr)))).
Proof.
  apply (proj2 (proj2 (display_rows
           (mkBST (Node 50 (Node 30 nullptr (Node 40 nullptr nullptr))
                           (Node 70 nullptr nullptr)) true)))).
  apply is_bst_bst. reflexivity.
Defined.

(** X15: On a search tree the lines of [display] carry the values in strictly
    decreasing order from the top, the largest first. *)
Theorem display_descending (self : BST) :
  bst (root self) ->
  exists rows : list (Z * Z),
    display self =
      ("BST Structure:" ++ newline)%string ::
      flat_map (fun row => [setw (fst row) (show_int (snd row)); newline]) rows /\
    StronglySorted Z.gt (map snd rows).
Proof.
  intros Hb. destruct (printTree_rows (root self) 0) as (rows & E & M & _).
  exists rows. unfold display. rewrite E. split; [reflexivity|].
  rewrite M. apply sorted_rev. now apply bst_sorted.
Qed.

Lemma display_descending_witness :
  exists rows : list (Z * Z),
    display (mkBST (Node 5 (Node 3 nullptr nullptr) nullptr) true) =
      ("BST Structure:" ++ newline)%string ::
      flat_map (fun row => [setw (fst row) (show_int (snd row)); newline]) rows /\
    StronglySorted Z.gt (map snd rows).
Proof.
  apply (display_descending (mkBST (Node 5 (Node 3 nullptr nullptr) nullptr) true)).
  apply is_bst_bst. reflexivity.
Defined.

Lemma sorted_NoDup (xs : list Z) : StronglySorted Z.lt xs -> NoDup xs.
Proof.
  induction 1 as [|a xs Hs IH Ha]; constructor; [|exact IH].
  intros Hin. rewrite Forall_forall in Ha. apply Ha in Hin. lia.
Qed.

Lemma destroyTree_perm (t : tree) : Permutation (destroyTree t) (inorder t).
Proof.
  induction t as [|d l IHl r IHr]; [constructor|].
  cbn [destroyTree inorder]. apply Permutation_app; [exact IHl|].
  eapply Permutation_trans; [apply Permutation_app_comm|].
  cbn [app]. now constructor.
Qed.

(** X16: [destroyTree] passes the nodes of the tree to [delete], as many as the
    tree has and holding the values of the traversal; on a search tree no
    value comes twice, so no node is released twice. *)
Theorem destroyTree_once (t : tree) :
  Permutation (destroyTree t) (inorder t) /\
  List.length (destroyTree t) = size t /\
  (bst t -> NoDup (destroyTree t)).
Proof.
  pose proof (destroyTree_perm t) as P. split; [exact P|]. split.
  - rewrite (Permutation_length P). apply length_inorder.
  - intros Hb. apply (Permutation_NoDup (Permutation_sym P)).
    apply sorted_NoDup. now apply bst_sorted.
Qed.

Lemma destroyTree_once_witness :
  NoDup (destroyTree (Node 5 (Node 3 nullptr nullptr) (Node 8 nullptr nullptr))).
Proof.
  apply (proj2 (proj2 (destroyTree_once
           (Node 5 (Node 3 nullptr nullptr) (Node 8 nullptr nullptr))))).
  apply is_bst_bst. reflexivity.
Defined.

(** ** [main] *)

Lemma after_fst (out : list string) (r : main_state * list string * outcome) :
  fst (fst (after out r)) = fst (fst r).
Proof. now destruct r as [[t o] oc]. Qed.


Lemma after_snd (out : list string) (r : main_state * list string * outcome) :
  snd (after out r) = snd r.
Proof. now destruct r as [[t o] oc]. Qed.

Lemma after_after (out out' : list string)
    (r : main_state * list string * outcome) :
  after out (after out' r) = after (out ++ out') r.
Proof. destruct r as [[t o] oc]. simpl. now rewrite app_assoc. Qed.

Lemma after_nil (r : main_state * list string * outcome) : after [] r = r.
Proof. now destruct r as [[t o] oc]. Qed.

(** *** Extraction *)



Lemma extract_Num (rest : list item) (z : Z) (var : option Z) :
  INT_MIN <= z <= INT_MAX ->
  extract (mkIstream (Num z :: rest) false) var = (mkIstream rest false, Some z).
Proof.
  intros Hz. unfold extract. simpl.
  destruct (Z.ltb_spec z INT_MIN); [lia|].
  destruct (Z.ltb_spec INT_MAX z); [lia|]. reflexivity.
Qed.


Section MainFacts.

Variable rand : N -> Z.
Variable elapsed : N -> Z -> string.

Lemma main_loop_invariant (turns : nat) :
  forall st,
    bst (root (m_tree st)) -> verbose (m_tree st) = true ->
    bst (root (m_tree (fst (fst (main_loop rand elapsed turns st))))) /\
    verbose (m_tree (fst (fst (main_loop rand elapsed turns st)))) = true /\
    (snd (main_loop rand elapsed turns st) = Exited 0 \/
     snd (main_loop rand elapsed turns st) = Running \/
     snd (main_loop rand elapsed turns st) = ReadsUnassigned).
Proof.
  induction turns as [|n IH]; intros st Hb Hv.
  - simpl. auto.
  - cbn [main_loop].
    destruct (extract (m_cin st) (m_choice st)) as [cin1 choice1].
    destruct choice1 as [c|]; [|simpl; auto].
    destruct (c =? 1).
    { destruct (extract cin1 (m_value st)) as [cin2 value2].
      destruct value2 as [v|]; [|simpl; auto].
      rewrite add_eq, after_fst, after_snd.
      apply IH; [|exact Hv]. simpl. now apply bst_insert. }
    destruct (c =? 2).
    { destruct (extract cin1 (m_value st)) as [cin2 value2].
      destruct value2 as [v|]; [|simpl; auto].
      rewrite remove_eq.
      destruct (remove_total (root (m_tree st)) v) as [t' E]. rewrite E.
      cbn [option_map]. rewrite after_fst, after_snd.
      apply IH; [|exact Hv]. simpl. eapply bst_remove; eauto. }
    destruct (c =? 3).
    { rewrite after_fst, after_snd. apply IH; [exact Hb|exact Hv]. }
    destruct (c =? 4).
    { rewrite after_fst, after_snd. apply IH; [exact Hb|exact Hv]. }
    destruct (c =? 5).
    { pose proof (testPerformance_bst (fun i => rand (m_used st + i)%N)
                    (elapsed (m_used st)) (m_tree st) Hb) as B.
      pose proof (testPerformance_verbose (fun i => rand (m_used st + i)%N)
                    (elapsed (m_used st)) (m_tree st)) as V.
      destruct (Public.testPerformance _ _ (m_tree st)) as [tree1 out1].
      rewrite after_fst, after_snd. apply IH; [exact B|exact V]. }
    destruct (c =? 6).
    { simpl. auto. }
    rewrite after_fst, after_snd. apply IH; [exact Hb|exact Hv].
Qed.


Lemma main_loop_requests (ops : list op) :
  forall turns st rest,
    failed (m_cin st) = false ->
    pending (m_cin st) = flat_map keys ops ++ rest ->
    Forall fits_int ops ->
    exists self out out' c v,
      run ops (m_tree st) = Some (self, out) /\
      main_loop rand elapsed (List.length ops + turns) st =
      after out' (main_loop rand elapsed turns
                    (mkMain self c v (mkIstream rest false) (m_used st))).
Proof.
  induction ops as [|o ops IH]; intros turns st rest Hf Hp Hfit.
  - exists (m_tree st), [], [], (m_choice st), (m_value st).
    split; [reflexivity|]. rewrite after_nil.
    destruct st as [t c v [p f] u]. simpl in *. now subst.
  - inversion Hfit as [|? ? Ho Hfit']; subst.
    destruct st as [t c0 v0 [p f] u]. simpl in Hf, Hp. subst f p.
    assert (INT_MIN <= 1 <= INT_MAX) as R1 by (unfold INT_MIN, INT_MAX; lia).
    assert (INT_MIN <= 2 <= INT_MAX) as R2 by (unfold INT_MIN, INT_MAX; lia).
    destruct o as [x|x]; simpl in Ho;
      cbn [List.length Nat.add main_loop flat_map keys app
           m_tree m_choice m_value m_cin m_used run step].
    + rewrite (extract_Num _ 1 c0 R1). cbn [Z.eqb Pos.eqb].
      rewrite (extract_Num _ x v0 Ho). rewrite add_eq.
      destruct (IH turns
                  (mkMain (mkBST (fst (insert (verbose t) (root t) x)) (verbose t))
                          (Some 1) (Some x)
                          (mkIstream (flat_map keys ops ++ rest) false) u)
                  rest eq_refl eq_refl Hfit')
        as (self & out & out' & c & v & Er & Em).
      cbn [m_tree m_used] in Er, Em. rewrite Er, Em, after_after.
      eexists self, _, _, c, v. split; reflexivity.
    + rewrite (extract_Num _ 2 c0 R2). cbn [Z.eqb Pos.eqb].
      rewrite (extract_Num _ x v0 Ho). rewrite remove_eq.
      destruct (remove_total (root t) x) as [t' E]. rewrite E.
      cbn [option_map].
      destruct (IH turns
                  (mkMain (mkBST t' (verbose t)) (Some 2) (Some x)
                          (mkIstream (flat_map keys ops ++ rest) false) u)
                  rest eq_refl eq_refl Hfit')
        as (self & out & out' & c & v & Er & Em).
      cbn [m_tree m_used] in Er, Em. rewrite Er, Em, after_after.
      eexists self, _, _, c, v. split; reflexivity.
Qed.

End MainFacts.

(** X17: Whatever standard input holds and however many turns of the loop
    are run, the tree that [main] holds is a search tree and its verbose flag
    is on; the run never reads through a null pointer: it has returned 0, or
    is at the head of the loop, or has read [choice] or [value] before any
    value was stored in it. *)
Theorem main_keeps_search_tree (rand : N -> Z) (elapsed : N -> Z -> string)
    (input : list item) (turns : nat) :
  bst (root (m_tree (fst (fst (main rand elapsed input turns))))) /\
  verbose (m_tree (fst (fst (main rand elapsed input turns)))) = true /\
  (snd (main rand elapsed input turns) = Exited 0 \/
   snd (main rand elapsed input turns) = Running \/
   snd (main rand elapsed input turns) = ReadsUnassigned).
Proof.
  unfold main. apply main_loop_invariant; [exact I|reflexivity].
Qed.



(** X19: A session of add and remove requests whose values fit an [int],
    typed at the menu, takes one turn of the loop per request and leaves
    [main] holding the object that the same requests produce on a new
    object; typing 6 next makes [main] return 0 with that object. *)
Theorem main_runs_requests (rand : N -> Z) (elapsed : N -> Z -> string)
    (ops : list op) :
  Forall fits_int ops ->
  exists self out,
    run ops BST_new = Some (self, out) /\
    m_tree (fst (fst (main rand elapsed (flat_map keys ops)
                           (List.length ops)))) = self /\
    snd (main rand elapsed (flat_map keys ops) (List.length ops)) = Running /\
    m_tree (fst (fst (main rand elapsed (flat_map keys ops ++ [Num 6])
                           (S (List.length ops))))) = self /\
    snd (main rand elapsed (flat_map keys ops ++ [Num 6])
              (S (List.length ops))) = Exited 0.
Proof.
  intros Hfit. unfold main.
  destruct (main_loop_requests rand elapsed ops 0
              (mkMain BST_new None None (mkIstream (flat_map keys ops) false) 0%N)
              [] eq_refl (eq_sym (app_nil_r _)) Hfit)
    as (self & out & o0 & c0 & v0 & Er & E0).
  destruct (main_loop_requests rand elapsed ops 1
              (mkMain BST_new None None
                      (mkIstream (flat_map keys ops ++ [Num 6]) false) 0%N)
              [Num 6] eq_refl eq_refl Hfit)
    as (self' & out' & o1 & c1 & v1 & Er' & E1).
  cbn [m_tree] in Er, Er'. rewrite Er in Er'. injection Er' as <- <-.
  rewrite Nat.add_0_r in E0. rewrite Nat.add_1_r in E1.
  exists self, out. rewrite E0, E1, !after_fst, !after_snd.
  split; [exact Er|]. repeat split.
Qed.

Lemma main_runs_requests_witness :
  exists self out,
    run [Add 50; Add 30; Remove 50] BST_new = Some (self, out) /\
    m_tree (fst (fst (main (fun _ => 0) (fun _ _ => "0"%string)
                           (flat_map keys [Add 50; Add 30; Remove 50])
                           (List.length [Add 50; Add 30; Remove 50])))) = self /\
    snd (main (fun _ => 0) (fun _ _ => "0"%string)
              (flat_map keys [Add 50; Add 30; Remove 50])
              (List.length [Add 50; Add 30; Remove 50])) = Running /\
    m_tree (fst (fst (main (fun _ => 0) (fun _ _ => "0"%string)
                           (flat_map keys [Add 50; Add 30; Remove 50] ++ [Num 6])
                           (S (List.length [Add 50; Add 30; Remove 50]))))) = self /\
    snd (main (fun _ => 0) (fun _ _ => "0"%string)
              (flat_map keys [Add 50; Add 30; Remove 50] ++ [Num 6])
              (S (List.length [Add 50; Add 30; Remove 50]))) = Exited 0.
Proof.
  apply (main_runs_requests (fun _ => 0) (fun _ _ => "0"%string)
           [Add 50; Add 30; Remove 50]).
  repeat constructor; unfold INT_MIN, INT_MAX; simpl; lia.
Defined.



(** ** The value returned for the empty tree *)

Lemma findMax_In (t : tree) : t <> nullptr -> In (findMax t) (inorder t).
Proof.
  intros Hne. rewrite findMax_last.
  destruct t as [|d l r]; [congruence|].
  destruct (exists_last (l := inorder (Node d l r))) as (xs & a & E).
  { simpl. destruct (inorder l); discriminate. }
  rewrite E, last_last. apply in_or_app. right. now left.
Qed.

(** X20: When the tree holds no negative value, [findMaximum] returns -1 exactly
    when the tree is empty. *)
Theorem findMaximum_sentinel (self : BST) :
  Forall (fun x => 0 <= x) (inorder (root self)) ->
  (Public.findMaximum self = -1 <-> root self = nullptr).
Proof.
  intros Hpos. unfold Public.findMaximum. split.
  - intros E. destruct (root self) as [|d l r] eqn:R; [reflexivity|].
    exfalso. rewrite Forall_forall in Hpos.
    assert (In (findMax (Node d l r)) (inorder (Node d l r))) as Hin
      by (apply findMax_In; discriminate).
    apply Hpos in Hin. lia.
  - intros ->. reflexivity.
Qed.

Lemma findMaximum_sentinel_witness :
  Public.findMaximum (mkBST (Node 0 nullptr nullptr) true) = -1 <->
  root (mkBST (Node 0 nullptr nullptr) true) = nullptr.
Proof.
  apply (findMaximum_sentinel (mkBST (Node 0 nullptr nullptr) true)).
  simpl. repeat constructor. lia.
Defined.
